(** * Well block-average pressures (WBP): a model of PAvgCalculator.cpp

    The development embeds the numeric kernel (compensated summation,
    weighted running averages), the contribution accumulator, the
    connection topology with its inactive-cell pruning, the pressure
    offset calculator and the top-level pipeline of
    [src/opm/input/eclipse/Schedule/Well/PAvgCalculator.cpp].

    - [double] is IEEE 754 binary64: Rocq's primitive [float], so every
      definition runs on concrete inputs and rounding, signed zeros,
      infinities and NaN behave as in the program.
    - [std::size_t] cell identifiers and grid coordinates are [Z] with the
      64-bit wrap-around written out; positions in a vector are [nat].
    - [std::vector] is [list]; [operator[]] is a total lookup ([!!!]): an
      out-of-range read, undefined in C++, yields the element type's
      default value here.
    - [std::array<T, N>] of the accumulator is a record with N fields. *)

From Stdlib Require Import ZArith Bool Lia Floats.
From stdpp Require Import base option list gmap strings pretty.

Abbreviation double := float (only parsing).

(** [T{}] for [double]: the default a total lookup falls back to. *)
#[global] Instance double_inhabited : Inhabited double := populate 0%float.

(** ** Fixed-size arrays of the accumulator *)

(** [std::array<T, 4>], indexed by [Result::WBPMode]. *)
Inductive WBPMode := WBP | WBP4 | WBP5 | WBP9.

Record array4 (T : Type) := Array4 { at0 : T; at1 : T; at2 : T; at3 : T }.
Arguments Array4 {T}.
Arguments at0 {T}.
Arguments at1 {T}.
Arguments at2 {T}.
Arguments at3 {T}.

(** [std::array<T, 3>]: centre, rectangular, diagonal. *)
Record array3 (T : Type) := Array3 { tm0 : T; tm1 : T; tm2 : T }.
Arguments Array3 {T}.
Arguments tm0 {T}.
Arguments tm1 {T}.
Arguments tm2 {T}.

Module array4.
Definition get {T} (a : array4 T) (type : WBPMode) : T :=
  match type with
  | WBP => at0 a | WBP4 => at1 a | WBP5 => at2 a | WBP9 => at3 a
  end.

Definition set {T} (type : WBPMode) (x : T) (a : array4 T) : array4 T :=
  match type with
  | WBP => Array4 x (at1 a) (at2 a) (at3 a)
  | WBP4 => Array4 (at0 a) x (at2 a) (at3 a)
  | WBP5 => Array4 (at0 a) (at1 a) x (at3 a)
  | WBP9 => Array4 (at0 a) (at1 a) (at2 a) x
  end.

Definition map {T U} (f : T → U) (a : array4 T) : array4 U :=
  Array4 (f (at0 a)) (f (at1 a)) (f (at2 a)) (f (at3 a)).

Definition zip_with {T U V} (f : T → U → V) (a : array4 T) (b : array4 U)
  : array4 V :=
  Array4 (f (at0 a) (at0 b)) (f (at1 a) (at1 b))
         (f (at2 a) (at2 b)) (f (at3 a) (at3 b)).

Definition to_list {T} (a : array4 T) : list T :=
  [at0 a; at1 a; at2 a; at3 a].
End array4.

Module array3.
Definition map {T U} (f : T → U) (a : array3 T) : array3 U :=
  Array3 (f (tm0 a)) (f (tm1 a)) (f (tm2 a)).
End array3.

(** ** Anonymous namespace: numeric helpers *)

(** [pressureOffset]: [density * (refDepth - depth) * gravity]. *)
Definition pressureOffset (density depth gravity refDepth : double) : double :=
  (density * (refDepth - depth) * gravity)%float.

(** [RunningCompensatedSummation<double>]: Kahan summation. *)
Module RunningCompensatedSummation.
Record t := Make { value_ : double; err_ : double }.

(** [operator+=(const T& x)] *)
Definition add_assign (x : double) (self : t) : t :=
  let t0 := value_ self in
  let err1 := (err_ self + x)%float in
  let value1 := (t0 + err1)%float in
  let err2 := (err1 + (t0 - value1))%float in
  {| value_ := value1; err_ := err2 |}.

(** [operator+=(const RunningCompensatedSummation& other)]: the error
    term of [other] is discarded. *)
Definition add_assign_sum (other : t) (self : t) : t :=
  add_assign (value_ other) self.

(** [operator*=(const T& alpha)] *)
Definition mul_assign (alpha : double) (self : t) : t :=
  {| value_ := (value_ self * alpha)%float; err_ := err_ self |}.

(** [clear()]; also the value-initialised object. *)
Definition clear (self : t) : t := {| value_ := 0%float; err_ := 0%float |}.

(** [mutableValue() = x] *)
Definition set_value (x : double) (self : t) : t :=
  {| value_ := x; err_ := err_ self |}.

Definition zero : t := {| value_ := 0%float; err_ := 0%float |}.
End RunningCompensatedSummation.

(** [WeightedRunningAverage<double, double>]. *)
Module WeightedRunningAverage.
Module RCS := RunningCompensatedSummation.

Record t := Make { sum_ : RCS.t; weight_ : RCS.t }.

Definition clear (self : t) : t :=
  {| sum_ := RCS.clear (sum_ self); weight_ := RCS.clear (weight_ self) |}.

Definition zero : t := {| sum_ := RCS.zero; weight_ := RCS.zero |}.

(** [sum()] and [weight()]: read the sum values. *)
Definition sum (self : t) : double := RCS.value_ (sum_ self).
Definition weight (self : t) : double := RCS.value_ (weight_ self).

(** [add(const T& x, const W& w)] *)
Definition add (x w : double) (self : t) : t :=
  {| sum_ := RCS.add_assign (w * x)%float (sum_ self);
     weight_ := RCS.add_assign w (weight_ self) |}.

(** [operator*=(const W& alpha)] *)
Definition mul_assign (alpha : double) (self : t) : t :=
  {| sum_ := RCS.mul_assign alpha (sum_ self); weight_ := weight_ self |}.

(** [operator+=(const WeightedRunningAverage& other)] *)
Definition add_assign (other : t) (self : t) : t :=
  {| sum_ := RCS.add_assign_sum (sum_ other) (sum_ self);
     weight_ := RCS.add_assign_sum (weight_ other) (weight_ self) |}.

(** [mutableSum() = x], [mutableWeight() = x] *)
Definition set_sum (x : double) (self : t) : t :=
  {| sum_ := RCS.set_value x (sum_ self); weight_ := weight_ self |}.
Definition set_weight (x : double) (self : t) : t :=
  {| sum_ := sum_ self; weight_ := RCS.set_value x (weight_ self) |}.
End WeightedRunningAverage.

Module WRA := WeightedRunningAverage.
Module RCS := RunningCompensatedSummation.

(** [value(avg)]: [(abs(w) > W{}) ? avg.sum() / w : T{}]. *)
Definition value (avg : WRA.t) : double :=
  let w := WRA.weight avg in
  if (0 <? abs w)%float then (WRA.sum avg / w)%float else 0%float.

(** [add(const WeightedRunningAverage& x, const W& w)]: the current value
    of [x] enters as one sample of weight [w]. *)
Definition WRA_add_average (x : WRA.t) (w : double) (self : WRA.t) : WRA.t :=
  WRA.add (value x) w self.

(** ** PAvgCalculator::Accumulator::Impl *)

Module Impl.
(** [avg_]: the four results; [term_]: the three term contributions. *)
Record t := Make { avg_ : array4 WRA.t; term_ : array3 WRA.t }.

(** A value-initialised accumulator ([Accumulator{}]). *)
Definition zero : t :=
  {| avg_ := Array4 WRA.zero WRA.zero WRA.zero WRA.zero;
     term_ := Array3 WRA.zero WRA.zero WRA.zero |}.

Definition addCentre (weight press : double) (self : t) : t :=
  {| avg_ := avg_ self;
     term_ := Array3 (WRA.add press weight (tm0 (term_ self)))
                     (tm1 (term_ self)) (tm2 (term_ self)) |}.

Definition addRectangular (weight press : double) (self : t) : t :=
  {| avg_ := avg_ self;
     term_ := Array3 (tm0 (term_ self))
                     (WRA.add press weight (tm1 (term_ self)))
                     (tm2 (term_ self)) |}.

Definition addDiagonal (weight press : double) (self : t) : t :=
  {| avg_ := avg_ self;
     term_ := Array3 (tm0 (term_ self)) (tm1 (term_ self))
                     (WRA.add press weight (tm2 (term_ self))) |}.

(** [add(weight, other)]: for every [i], [avg_[i].add(other.avg_[i], weight)]. *)
Definition add (weight : double) (other : t) (self : t) : t :=
  {| avg_ := array4.zip_with (λ a o, WRA_add_average o weight a)
                             (avg_ self) (avg_ other);
     term_ := term_ self |}.

Definition prepareAccumulation (self : t) : t :=
  {| avg_ := array4.map WRA.clear (avg_ self); term_ := term_ self |}.

Definition prepareContribution (self : t) : t :=
  {| avg_ := avg_ self; term_ := array3.map WRA.clear (term_ self) |}.

(** [combineDirect()]: writes [avg_[2]] and [avg_[3]]. *)
Definition combineDirect (self : t) : t :=
  let a := avg_ self in
  let tm := term_ self in
  let a2 := WRA.add_assign (tm1 tm) (WRA.add_assign (tm0 tm) (at2 a)) in
  let a3 := WRA.add_assign (tm2 tm)
              (WRA.add_assign (tm1 tm) (WRA.add_assign (tm0 tm) (at3 a))) in
  {| avg_ := Array4 (at0 a) (at1 a) a2 a3; term_ := tm |}.

(** [combineWeighted(innerWeight)]: writes [avg_[2]] and [avg_[3]]. *)
Definition combineWeighted (innerWeight : double) (self : t) : t :=
  let a := avg_ self in
  let tm := term_ self in
  let a2 := WRA_add_average (tm1 tm) (1 - innerWeight)%float
              (WRA_add_average (tm0 tm) innerWeight (at2 a)) in
  let outer := WRA.add_assign (tm2 tm) (tm1 tm) in
  let a3 := WRA_add_average outer (1 - innerWeight)%float
              (WRA_add_average (tm0 tm) innerWeight (at3 a)) in
  {| avg_ := Array4 (at0 a) (at1 a) a2 a3; term_ := tm |}.

Definition commitContribution (innerWeight : double) (self : t) : t :=
  let a := avg_ self in
  let tm := term_ self in
  let self1 :=
    {| avg_ := Array4 (WRA.add_assign (tm0 tm) (at0 a))
                      (WRA.add_assign (tm1 tm) (at1 a)) (at2 a) (at3 a);
       term_ := tm |} in
  if (innerWeight <? 0)%float
  then combineDirect self1
  else combineWeighted innerWeight self1.

(** [LocalRunningAverages]: [std::array<double, 8>], written and read
    through a running index [j]. *)
Definition getRunningAverages (self : t) : list double :=
  fst (foldl (λ '(a, j) avg,
                (<[S j := WRA.weight avg]> (<[j := WRA.sum avg]> a), S (S j)))
             (replicate 8 0%float, 0%nat)
             (array4.to_list (avg_ self))).

Definition assignRunningAverages (a : list double) (self : t) : t :=
  let assign (j : nat) (avg : WRA.t) : WRA.t :=
    WRA.set_weight (a !!! S j) (WRA.set_sum (a !!! j) avg) in
  let v := avg_ self in
  {| avg_ := Array4 (assign 0%nat (at0 v)) (assign 2%nat (at1 v))
                    (assign 4%nat (at2 v)) (assign 6%nat (at3 v));
     term_ := term_ self |}.

Definition getAverageValue (type : WBPMode) (self : t) : double :=
  value (array4.get (avg_ self) type).
End Impl.

(** ** Collaborators declared outside the translation unit *)

(** [std::size_t] arithmetic: the value of an expression such as [k - 1]
    once it is passed as a [std::size_t]. *)
Definition size_t_wrap (z : Z) : Z := z mod 2 ^ 64.

(** Modelled from the spec: [Opm::GridDims] (GridDims.hpp is not part of
    the sources) is the grid mapping of section 6, "(i,j,k) ->
    optional<linear id> within bounds (NX,NY,NZ), and the inverse
    (linear id) -> (i,j,k)". *)
Record GridDims := {
  getNX : Z;
  getNY : Z;
  getNZ : Z;
  getGlobalIndex : Z → Z → Z → option Z;
  getIJK : Z → Z * Z * Z;
}.

(** Modelled from the spec: [Opm::Connection] (Connection.hpp is not part
    of the sources): "each exposing global cell id, open/closed state,
    CTF, depth, and a face direction (X/Y/Z)". *)
Module Connection.
Inductive State := OPEN | SHUT.
Inductive Direction := X | Y | Z.
Record t := Make {
  global_index : BinNums.Z;
  state : State;
  CF : double;
  depth : double;
  dir : Direction;
}.
End Connection.

#[global] Instance Connection_State_eq_dec : EqDecision Connection.State.
Proof. solve_decision. Defined.
#[global] Instance Connection_Direction_eq_dec : EqDecision Connection.Direction.
Proof. solve_decision. Defined.

(** Modelled from the spec: [PAvgDynamicSourceData] (its header is not
    part of the sources): "indexable by local cell index (Pressure,
    PoreVol, MixtureDensity) and by connection index (MixtureDensity) -
    two separate named spans".  [wellBlocks] is read at the value the
    program passes to it, an entry of [contributingCells_]. *)
Record SourceDataSpan := {
  Pressure : double;
  PoreVol : double;
  MixtureDensity : double;
}.

Record Sources := {
  wellBlocks : Z → SourceDataSpan;
  wellConns : nat → SourceDataSpan;
}.

(** Modelled from the spec: [PAvg] (PAvg.hpp is not part of the sources),
    the run-time controls: "open-connections flag, inner weight F1, outer
    blend F2, depth-correction mode".  [PAvg::DepthCorrection] is an
    enumeration over [int]; an object of that type can hold any [int]. *)
Record PAvg := {
  inner_weight : double;
  conn_weight : double;
  depth_correction : Z;
  open_connections : bool;
}.

(** Declarations of headers that are not part of the sources and that the
    translation unit relies on: the values of the three enumerators of
    [PAvg::DepthCorrection], and the default argument of
    [Accumulator::commitContribution], used by the call
    [accumPV_.commitContribution()]. *)
Record Declarations := {
  DepthCorrection_NONE : Z;
  DepthCorrection_WELL : Z;
  DepthCorrection_RES : Z;
  commitContribution_default : double;
}.

(** Modelled from the spec: [PAvgCalculator::Result] (PAvgCalculator.hpp
    is not part of the sources): "4 named scalar pressures (WBP, WBP4,
    WBP5, WBP9)", "retrievable by name". *)
Module Result.
Record t := Make { wbp_ : array4 double }.
Definition zero : t := {| wbp_ := Array4 0 0 0 0 |}%float.
Definition set (type : WBPMode) (wbp : double) (self : t) : t :=
  {| wbp_ := array4.set type wbp (wbp_ self) |}.
Definition value (self : t) (type : WBPMode) : double :=
  array4.get (wbp_ self) type.
End Result.

(** [Accumulator::getFinalResult()] *)
Definition getFinalResult (acc : Impl.t) : Result.t :=
  foldl (λ result type, Result.set type (Impl.getAverageValue type acc) result)
        Result.zero [WBP; WBP4; WBP5; WBP9].

(** [linearCombination(alpha, x, beta, y)] *)
Definition linearCombination (alpha : double) (x : Result.t)
                             (beta : double) (y : Result.t) : Result.t :=
  {| Result.wbp_ :=
       array4.zip_with (λ xi yi, (alpha * xi + beta * yi)%float)
                       (Result.wbp_ x) (Result.wbp_ y) |}.

(** ** PAvgCalculator: state *)

(** [PAvgCalculator::PAvgConnection] *)
Record PAvgConnection := {
  ctf : double;
  depth : double;
  cell : nat;
  rectNeighbours : list nat;
  diagNeighbours : list nat;
}.

#[global] Instance PAvgConnection_inhabited : Inhabited PAvgConnection :=
  populate {| ctf := 0; depth := 0; cell := 0;
              rectNeighbours := []; diagNeighbours := [] |}.

Record PAvgCalculator := {
  contributingCells_ : list Z;
  connections_ : list PAvgConnection;
  openConns_ : list nat;
  accumCTF_ : Impl.t;
  accumPV_ : Impl.t;
  averagePressures_ : Result.t;
}.

Definition set_topology (cells : list Z) (conns : list PAvgConnection)
                        (opens : list nat) (self : PAvgCalculator)
  : PAvgCalculator :=
  {| contributingCells_ := cells; connections_ := conns; openConns_ := opens;
     accumCTF_ := accumCTF_ self; accumPV_ := accumPV_ self;
     averagePressures_ := averagePressures_ self |}.

Definition set_accumulators (aCTF aPV : Impl.t) (self : PAvgCalculator)
  : PAvgCalculator :=
  {| contributingCells_ := contributingCells_ self;
     connections_ := connections_ self; openConns_ := openConns_ self;
     accumCTF_ := aCTF; accumPV_ := aPV;
     averagePressures_ := averagePressures_ self |}.

Definition set_averagePressures (r : Result.t) (self : PAvgCalculator)
  : PAvgCalculator :=
  {| contributingCells_ := contributingCells_ self;
     connections_ := connections_ self; openConns_ := openConns_ self;
     accumCTF_ := accumCTF_ self; accumPV_ := accumPV_ self;
     averagePressures_ := r |}.

(** ** Topology construction *)

(** [SetupMap]: global cell id to position in [contributingCells_]. *)
Abbreviation SetupMap := (gmap Z nat).

(** [std::unordered_map::emplace(key, val)]: the entry now stored under
    [key] and whether it was inserted by this call. *)
Definition emplace (key : Z) (val : nat) (m : SetupMap)
  : SetupMap * (Z * nat) * bool :=
  match m !! key with
  | Some old => (m, (key, old), false)
  | None => (<[key := val]> m, (key, val), true)
  end.

Inductive NeighbourKind := Rectangular | Diagonal.

(** [globalCellIndex(cellIndexMap, i, j, k)] *)
Definition globalCellIndex (cellIndexMap : GridDims) (i j k : Z) : option Z :=
  if (getNX cellIndexMap <=? i)%Z || (getNY cellIndexMap <=? j)%Z
     || (getNZ cellIndexMap <=? k)%Z
  then None
  else getGlobalIndex cellIndexMap i j k.

(** Update of [connections_.back()]. *)
Definition update_back (f : PAvgConnection → PAvgConnection)
                       (conns : list PAvgConnection) : list PAvgConnection :=
  match conns with
  | [] => []
  | _ => <[pred (length conns) := f (conns !!! pred (length conns))]> conns
  end.

Definition push_neighbour (kind : NeighbourKind) (ix : nat)
                          (conn : PAvgConnection) : PAvgConnection :=
  match kind with
  | Rectangular =>
      {| ctf := ctf conn; depth := depth conn; cell := cell conn;
         rectNeighbours := rectNeighbours conn ++ [ix];
         diagNeighbours := diagNeighbours conn |}
  | Diagonal =>
      {| ctf := ctf conn; depth := depth conn; cell := cell conn;
         rectNeighbours := rectNeighbours conn;
         diagNeighbours := diagNeighbours conn ++ [ix] |}
  end.

(** [addNeighbour(neighbour, neighbourKind, setupHelperMap)] *)
Definition addNeighbour (neighbour : option Z) (neighbourKind : NeighbourKind)
                        (st : PAvgCalculator * SetupMap)
  : PAvgCalculator * SetupMap :=
  let '(self, setupHelperMap) := st in
  match neighbour with
  | None => st
  | Some n =>
      let '(map1, localCellPos, newCellInserted) :=
        emplace n (length (contributingCells_ self)) setupHelperMap in
      let cells :=
        if newCellInserted
        then contributingCells_ self ++ [fst localCellPos]
        else contributingCells_ self in
      (set_topology cells
         (update_back (push_neighbour neighbourKind (snd localCellPos))
                      (connections_ self))
         (openConns_ self) self,
       map1)
  end.

(** [lastConnsCell()] *)
Definition lastConnsCell (self : PAvgCalculator) : Z :=
  contributingCells_ self
    !!! cell (connections_ self !!! pred (length (connections_ self))).

(** The eight candidate neighbours of a connection, in the order of the
    calls in [addNeighbours_X], [addNeighbours_Y], [addNeighbours_Z]. *)
Definition neighbourOffsets (d : Connection.Direction)
  : list (Z * Z * Z * NeighbourKind) :=
  match d with
  | Connection.X =>
      [(0, 0, 1, Rectangular); (0, 0, -1, Rectangular);
       (0, 1, 0, Rectangular); (0, -1, 0, Rectangular);
       (0, 1, 1, Diagonal); (0, 1, -1, Diagonal);
       (0, -1, 1, Diagonal); (0, -1, -1, Diagonal)]
  | Connection.Y =>
      [(1, 0, 0, Rectangular); (-1, 0, 0, Rectangular);
       (0, 0, 1, Rectangular); (0, 0, -1, Rectangular);
       (1, 0, 1, Diagonal); (-1, 0, 1, Diagonal);
       (1, 0, -1, Diagonal); (-1, 0, -1, Diagonal)]
  | Connection.Z =>
      [(1, 0, 0, Rectangular); (-1, 0, 0, Rectangular);
       (0, 1, 0, Rectangular); (0, -1, 0, Rectangular);
       (1, 1, 0, Diagonal); (-1, 1, 0, Diagonal);
       (1, -1, 0, Diagonal); (-1, -1, 0, Diagonal)]
  end%Z.

(** [addNeighbours_X], [addNeighbours_Y], [addNeighbours_Z]: the
    coordinates of the last connection's cell are read once, then the
    eight calls of [addNeighbour] follow. *)
Definition addNeighbours (d : Connection.Direction) (cellIndexMap : GridDims)
                         (st : PAvgCalculator * SetupMap)
  : PAvgCalculator * SetupMap :=
  let '(i, j, k) := getIJK cellIndexMap (lastConnsCell (fst st)) in
  foldl (λ st '(di, dj, dk, kind),
           addNeighbour
             (globalCellIndex cellIndexMap (size_t_wrap (i + di))
                (size_t_wrap (j + dj)) (size_t_wrap (k + dk)))
             kind st)
        st (neighbourOffsets d).

Definition addNeighbours_X := addNeighbours Connection.X.
Definition addNeighbours_Y := addNeighbours Connection.Y.
Definition addNeighbours_Z := addNeighbours Connection.Z.

(** [addConnection(cellIndexMap, conn, setupHelperMap)] *)
Definition addConnection (cellIndexMap : GridDims) (conn : Connection.t)
                         (st : PAvgCalculator * SetupMap)
  : PAvgCalculator * SetupMap :=
  let '(self, setupHelperMap) := st in
  let '(map1, localCellPos, newCellInserted) :=
    emplace (Connection.global_index conn)
            (length (contributingCells_ self)) setupHelperMap in
  let cells :=
    if newCellInserted
    then contributingCells_ self ++ [fst localCellPos]
    else contributingCells_ self in
  let opens :=
    if decide (Connection.state conn = Connection.OPEN)
    then openConns_ self ++ [length (connections_ self)]
    else openConns_ self in
  let conns :=
    connections_ self
      ++ [{| ctf := Connection.CF conn; depth := Connection.depth conn;
             cell := snd localCellPos;
             rectNeighbours := []; diagNeighbours := [] |}] in
  let st1 := (set_topology cells conns opens self, map1) in
  match Connection.dir conn with
  | Connection.X => addNeighbours_X cellIndexMap st1
  | Connection.Y => addNeighbours_Y cellIndexMap st1
  | Connection.Z => addNeighbours_Z cellIndexMap st1
  end.

(** The calculator before the constructor's body runs. *)
Definition empty_calculator : PAvgCalculator :=
  {| contributingCells_ := []; connections_ := []; openConns_ := [];
     accumCTF_ := Impl.zero; accumPV_ := Impl.zero;
     averagePressures_ := Result.zero |}.

(** [PAvgCalculator(cellIndexMap, connections)] *)
Definition PAvgCalculator_new (cellIndexMap : GridDims)
                              (connections : list Connection.t)
  : PAvgCalculator :=
  fst (foldl (λ st conn, addConnection cellIndexMap conn st)
             (empty_calculator, ∅) connections).

(** ** pruneInactiveWBPCells

    The [assert] on the mask's size is a precondition of the callers; the
    statements below carry it as a hypothesis where they need it. *)

Definition renumber (isActive : list bool) (newIndex : list nat)
                    (neighbours : list nat) : list nat :=
  foldl (λ newNeighbour neighbour,
           if isActive !!! neighbour : bool
           then newNeighbour ++ [newIndex !!! neighbour]
           else newNeighbour)
        [] neighbours.

Definition pruneInactiveWBPCells (isActive : list bool) (self : PAvgCalculator)
  : PAvgCalculator :=
  let allIx := seq 0 (length isActive) in
  let activeIx := filter (λ i, isActive !!! i = true) allIx in
  if decide (length activeIx = length allIx) then self else
  let newWBPCells :=
    (λ origCell, contributingCells_ self !!! origCell) <$> activeIx in
  let newIndex :=
    foldl (λ newIndex i, <[activeIx !!! i := i]> newIndex)
          (replicate (length allIx) 0%nat) (seq 0 (length activeIx)) in
  let conns :=
    (λ conn,
       {| ctf := ctf conn; depth := depth conn;
          cell := newIndex !!! cell conn;
          rectNeighbours := renumber isActive newIndex (rectNeighbours conn);
          diagNeighbours := renumber isActive newIndex (diagNeighbours conn) |})
      <$> connections_ self in
  set_topology newWBPCells conns (openConns_ self) self.

(** ** Pressure offsets and the accumulation pipeline *)

(** [std::invalid_argument] with its message. *)
Inductive exception := invalid_argument (what : string).

(** The result of a member function that may throw: the object as the
    call leaves it, and the exception if one was raised. *)
Inductive outcome :=
  | Returns (self : PAvgCalculator)
  | Throws (e : exception) (self : PAvgCalculator).

(** [std::isnormal]: neither zero, subnormal, infinite nor NaN. *)
Definition isnormal (x : double) : bool :=
  match classify x with
  | PNormal | NNormal => true
  | _ => false
  end.

(** [fmt::format("Unsupported WPAVE depth correction flag '{}'", flag)] *)
Definition unsupported_flag_message (flag : Z) : string :=
  "Unsupported WPAVE depth correction flag '" +:+ pretty flag +:+ "'".

(** The two index maps handed to the templates: [[](const auto i)
    { return i; }] and [[this](const auto i) { return openConns_[i]; }]. *)
Definition allConnIndex (i : nat) : nat := i.
Definition openConnIndex (self : PAvgCalculator) (i : nat) : nat :=
  openConns_ self !!! i.

(** The two per-sample weights of the CTF pass: the cell's pore volume
    and the constant 1. *)
Definition poreVolWeight (src : SourceDataSpan) : double := PoreVol src.
Definition unitWeight (_ : SourceDataSpan) : double := 1%float.

(** A [PressureTermHandler]: [addCentre], [addRectangular], [addDiagonal]. *)
Abbreviation PressureTermHandler := (double → double → Impl.t → Impl.t).

Definition neighList : list (PAvgConnection → list nat) :=
  [rectNeighbours; diagNeighbours].

Definition handlers : list ((PAvgConnection → list nat) * PressureTermHandler) :=
  [(rectNeighbours, Impl.addRectangular); (diagNeighbours, Impl.addDiagonal)].

Section Calculator.
Variable decl : Declarations.

(** [connectionPressureOffsetWell(nconn, sources, gravity, refDepth, connIndex)] *)
Definition connectionPressureOffsetWell (nconn : nat) (sources : Sources)
    (gravity refDepth : double) (connIndex : nat → nat)
    (self : PAvgCalculator) : list double :=
  let density connIx := MixtureDensity (wellConns sources connIx) in
  (λ connID,
     let connIx := connIndex connID in
     let conn := connections_ self !!! connIx in
     pressureOffset (density connIx) (depth conn) gravity refDepth)
    <$> seq 0 nconn.

(** [includeDensity] of [connectionPressureOffsetRes]. *)
Definition includeDensity (sources : Sources) (self : PAvgCalculator)
    (i : nat) (density : WRA.t) : WRA.t :=
  let src := wellBlocks sources (contributingCells_ self !!! i) in
  WRA.add (MixtureDensity src) (PoreVol src) density.

(** [connectionPressureOffsetRes(nconn, sources, gravity, refDepth,
    connIndex)]; [density] is cleared at the top of every iteration. *)
Definition connectionPressureOffsetRes (nconn : nat) (sources : Sources)
    (gravity refDepth : double) (connIndex : nat → nat)
    (self : PAvgCalculator) : list double :=
  (λ connID,
     let density := WRA.clear WRA.zero in
     let conn := connections_ self !!! connIndex connID in
     let density := includeDensity sources self (cell conn) density in
     let density :=
       foldl (λ density neighbours,
                foldl (λ density neighIdx,
                         includeDensity sources self neighIdx density)
                      density (neighbours conn))
             density neighList in
     pressureOffset (value density) (depth conn) gravity refDepth)
    <$> seq 0 nconn.

(** [connectionPressureOffset(sources, controls, gravity, refDepth)] *)
Definition connectionPressureOffset (sources : Sources) (controls : PAvg)
    (gravity refDepth : double) (self : PAvgCalculator)
  : exception + list double :=
  let nconn :=
    if open_connections controls
    then length (openConns_ self)
    else length (connections_ self) in
  if (depth_correction controls =? DepthCorrection_NONE decl)%Z
     || negb (isnormal gravity)
  then inr (replicate nconn 0%float)
  else if (depth_correction controls =? DepthCorrection_RES decl)%Z
  then
    if negb (open_connections controls)
    then inr (connectionPressureOffsetRes nconn sources gravity refDepth
                allConnIndex self)
    else inr (connectionPressureOffsetRes nconn sources gravity refDepth
                (openConnIndex self) self)
  else if negb (depth_correction controls =? DepthCorrection_WELL decl)%Z
  then inl (invalid_argument
              (unsupported_flag_message (depth_correction controls)))
  else
    if negb (open_connections controls)
    then inr (connectionPressureOffsetWell nconn sources gravity refDepth
                allConnIndex self)
    else inr (connectionPressureOffsetWell nconn sources gravity refDepth
                (openConnIndex self) self).

(** [addContrib] of the accumulation loop: one cell's pressure sample
    goes to the per-connection accumulator [accumCTF_c] and to
    [accumPV_]. *)
Definition addContrib (sources : Sources)
    (ctfPressWeight : SourceDataSpan → double) (self : PAvgCalculator)
    (i : nat) (dp : double) (handler : PressureTermHandler)
    (accs : Impl.t * Impl.t) : Impl.t * Impl.t :=
  let src := wellBlocks sources (contributingCells_ self !!! i) in
  let p := (Pressure src + dp)%float in
  (handler (ctfPressWeight src) p (fst accs),
   handler (PoreVol src) p (snd accs)).

(** One iteration of the loop over [connID]; the state is
    [(accumCTF_, accumPV_, accumCTF_c)]. *)
Definition accumulateConnection (sources : Sources) (controls : PAvg)
    (connDP : list double) (connIndex : nat → nat)
    (ctfPressWeight : SourceDataSpan → double) (self : PAvgCalculator)
    (st : Impl.t * Impl.t * Impl.t) (connID : nat)
  : Impl.t * Impl.t * Impl.t :=
  let '(accumCTF, accumPV, accumCTF_c) := st in
  let accumCTF_c :=
    Impl.prepareContribution (Impl.prepareAccumulation accumCTF_c) in
  let conn := connections_ self !!! connIndex connID in
  let accs :=
    addContrib sources ctfPressWeight self (cell conn) (connDP !!! connID)
               Impl.addCentre (accumCTF_c, accumPV) in
  let accs :=
    foldl (λ accs '(neighbours, handler),
             foldl (λ accs neighIdx,
                      addContrib sources ctfPressWeight self neighIdx
                                 (connDP !!! connID) handler accs)
                   accs (neighbours conn))
          accs handlers in
  let accumCTF_c :=
    Impl.commitContribution (inner_weight controls) (fst accs) in
  (Impl.add (ctf conn) accumCTF_c accumCTF, snd accs, accumCTF_c).

(** [accumulateLocalContributions(sources, controls, connDP, connIndex,
    ctfPressWeight)] *)
Definition accumulateLocalContributions_weighted (sources : Sources)
    (controls : PAvg) (connDP : list double) (connIndex : nat → nat)
    (ctfPressWeight : SourceDataSpan → double) (self : PAvgCalculator)
  : PAvgCalculator :=
  let accumCTF := Impl.prepareContribution (accumCTF_ self) in
  let accumPV := Impl.prepareContribution (accumPV_ self) in
  let accumCTF_c := Impl.zero in
  let nconn := length connDP in
  let st :=
    foldl (accumulateConnection sources controls connDP connIndex
                                ctfPressWeight self)
          (accumCTF, accumPV, accumCTF_c) (seq 0 nconn) in
  set_accumulators
    (fst (fst st))
    (Impl.commitContribution (commitContribution_default decl)
                             (snd (fst st)))
    self.

(** [accumulateLocalContributions(sources, controls, connDP, connIndex)] *)
Definition accumulateLocalContributions_indexed (sources : Sources)
    (controls : PAvg) (connDP : list double) (connIndex : nat → nat)
    (self : PAvgCalculator) : PAvgCalculator :=
  if (inner_weight controls <? 0)%float
  then accumulateLocalContributions_weighted sources controls connDP
         connIndex poreVolWeight self
  else accumulateLocalContributions_weighted sources controls connDP
         connIndex unitWeight self.

(** [accumulateLocalContribOpen] and [accumulateLocalContribAll]; their
    [assert] on [connDP.size()] holds for the [connDP] that
    [connectionPressureOffset] returns. *)
Definition accumulateLocalContribOpen (sources : Sources) (controls : PAvg)
    (connDP : list double) (self : PAvgCalculator) : PAvgCalculator :=
  accumulateLocalContributions_indexed sources controls connDP
    (openConnIndex self) self.

Definition accumulateLocalContribAll (sources : Sources) (controls : PAvg)
    (connDP : list double) (self : PAvgCalculator) : PAvgCalculator :=
  accumulateLocalContributions_indexed sources controls connDP
    allConnIndex self.

(** [accumulateLocalContributions(sources, controls, gravity, refDepth)]:
    both accumulators are cleared before the offsets are computed, so
    they stay cleared when the offset calculation throws. *)
Definition accumulateLocalContributions (sources : Sources)
    (controls : PAvg) (gravity refDepth : double) (self : PAvgCalculator)
  : outcome :=
  let self1 :=
    set_accumulators (Impl.prepareAccumulation (accumCTF_ self))
                     (Impl.prepareAccumulation (accumPV_ self)) self in
  match connectionPressureOffset sources controls gravity refDepth self1 with
  | inl e => Throws e self1
  | inr connDP =>
      if open_connections controls
      then Returns (accumulateLocalContribOpen sources controls connDP self1)
      else Returns (accumulateLocalContribAll sources controls connDP self1)
  end.

(** [collectGlobalContributions()]: empty body. *)
Definition collectGlobalContributions (self : PAvgCalculator)
  : PAvgCalculator := self.

(** [assignResults(controls)] *)
Definition assignResults (controls : PAvg) (self : PAvgCalculator)
  : PAvgCalculator :=
  let F2 := conn_weight controls in
  set_averagePressures
    (linearCombination F2 (getFinalResult (accumCTF_ self))
                       (1 - F2)%float (getFinalResult (accumPV_ self)))
    self.

(** [inferBlockAveragePressures(sources, controls, gravity, refDepth)] *)
Definition inferBlockAveragePressures (sources : Sources) (controls : PAvg)
    (gravity refDepth : double) (self : PAvgCalculator) : outcome :=
  match accumulateLocalContributions sources controls gravity refDepth self with
  | Throws e self1 => Throws e self1
  | Returns self1 =>
      Returns (assignResults controls (collectGlobalContributions self1))
  end.
End Calculator.

(** ** Predicates and reference definitions used by the statements *)

(** [std::isfinite]: neither infinite nor NaN. *)
Definition isfinite (x : double) : bool :=
  match classify x with
  | PInf | NInf | NaN => false
  | _ => true
  end.

(** The depth-correction modes the offset calculator knows. *)
Definition recognised (decl : Declarations) (mode : Z) : Prop :=
  mode = DepthCorrection_NONE decl ∨ mode = DepthCorrection_WELL decl
  ∨ mode = DepthCorrection_RES decl.

(** The number of connections a pass processes. *)
Definition processedConnections (controls : PAvg) (self : PAvgCalculator) : nat :=
  if open_connections controls
  then length (openConns_ self)
  else length (connections_ self).

(** The index invariant of section 3: the cell and every neighbour of a
    connection are positions in [contributingCells_]. *)
Definition valid_connection (n : nat) (conn : PAvgConnection) : Prop :=
  cell conn < n
  ∧ Forall (λ i, i < n) (rectNeighbours conn)
  ∧ Forall (λ i, i < n) (diagNeighbours conn).

Definition valid_indices (self : PAvgCalculator) : Prop :=
  Forall (valid_connection (length (contributingCells_ self)))
         (connections_ self).

#[global] Instance valid_connection_dec n conn : Decision (valid_connection n conn).
Proof. unfold valid_connection. apply _. Defined.

#[global] Instance valid_indices_dec self : Decision (valid_indices self).
Proof. unfold valid_indices. apply _. Defined.

(** The invariant of the constructor's loop: the helper map only holds
    positions of [contributingCells_]. *)
Definition setup_invariant (st : PAvgCalculator * SetupMap) : Prop :=
  valid_indices (fst st)
  ∧ map_Forall (λ _ pos, pos < length (contributingCells_ (fst st))) (snd st).

(** One accumulator's share of [addContrib]: the sample of cell [i],
    weighted by [weightOf]. *)
Definition addSample (sources : Sources) (weightOf : SourceDataSpan → double)
    (self : PAvgCalculator) (i : nat) (dp : double)
    (handler : PressureTermHandler) (acc : Impl.t) : Impl.t :=
  let src := wellBlocks sources (contributingCells_ self !!! i) in
  handler (weightOf src) (Pressure src + dp)%float acc.

(** The samples of connection [connID] added to [acc]: its cell as the
    centre term, then its rectangular and its diagonal neighbours. *)
Definition connectionSamples (sources : Sources)
    (weightOf : SourceDataSpan → double) (connDP : list double)
    (connIndex : nat → nat) (self : PAvgCalculator)
    (acc : Impl.t) (connID : nat) : Impl.t :=
  let conn := connections_ self !!! connIndex connID in
  let dp := connDP !!! connID in
  let acc := addSample sources weightOf self (cell conn) dp Impl.addCentre acc in
  let acc :=
    foldl (λ acc i, addSample sources weightOf self i dp Impl.addRectangular acc)
          acc (rectNeighbours conn) in
  foldl (λ acc i, addSample sources weightOf self i dp Impl.addDiagonal acc)
        acc (diagNeighbours conn).

(** The committed per-connection accumulator of connection [connID]: a
    value-initialised accumulator that received the connection's samples
    and was committed with the inner weight F1. *)
Definition committedConnection (sources : Sources) (controls : PAvg)
    (connDP : list double) (connIndex : nat → nat)
    (ctfPressWeight : SourceDataSpan → double) (self : PAvgCalculator)
    (connID : nat) : Impl.t :=
  Impl.commitContribution (inner_weight controls)
    (connectionSamples sources ctfPressWeight connDP connIndex self
                       Impl.zero connID).

(** Specification wording, section 4.3 step 3: an outer accumulator that
    absorbs per-connection accumulators, one [add(weight, other)] each. *)
Definition foldedByAdd (start : Impl.t) (contributions : list (double * Impl.t))
  : Impl.t :=
  foldl (λ outer '(weight, other), Impl.add weight other outer)
        start contributions.

(** [spec_float] images of the constant 1 and of the finite doubles. *)
Definition SF_one : spec_float := S754_finite false 4503599627370496 (-52).

Inductive SF_finite : spec_float → Prop :=
  | SF_finite_zero s : SF_finite (S754_zero s)
  | SF_finite_number s m e : SF_finite (S754_finite s m e).

(** ** Test fixtures *)

(** A Cartesian grid with natural ordering and every cell active. *)
Definition cartesian (nx ny nz : Z) : GridDims :=
  {| getNX := nx; getNY := ny; getNZ := nz;
     getGlobalIndex := λ i j k, Some (i + j * nx + k * nx * ny)%Z;
     getIJK := λ g, (g mod nx, (g / nx) mod ny, g / (nx * ny))%Z |}.

(** Header declarations for the examples: three distinct enumerator
    values and a chosen default inner weight. *)
Definition declarations_with (commitDefault : double) : Declarations :=
  {| DepthCorrection_NONE := 3; DepthCorrection_WELL := 1;
     DepthCorrection_RES := 2; commitContribution_default := commitDefault |}.

Definition test_declarations : Declarations := declarations_with (-1)%float.

(** The end-to-end scenario of section 8: one open connection in cell 0
    of a 2 x 1 x 1 grid, vertical, so that cell 1 is its only
    (rectangular) neighbour; CTF 2, depth 10. *)
Definition scenario_connection : Connection.t :=
  Connection.Make 0 Connection.OPEN 2%float 10%float Connection.Z.

Definition scenario_calculator : PAvgCalculator :=
  PAvgCalculator_new (cartesian 2 1 1) [scenario_connection].

(** Centre pressure 100, pore volume 10; neighbour pressure 90, pore
    volume 5; density 1000 everywhere. *)
Definition scenario_sources : Sources :=
  {| wellBlocks := λ g,
       if (g =? 0)%Z
       then {| Pressure := 100; PoreVol := 10; MixtureDensity := 1000 |}
       else {| Pressure := 90; PoreVol := 5; MixtureDensity := 1000 |};
     wellConns := λ _,
       {| Pressure := 0; PoreVol := 0; MixtureDensity := 1000 |} |}%float.

Definition scenario_controls (mode : Z) : PAvg :=
  {| inner_weight := 0.5; conn_weight := 1; depth_correction := mode;
     open_connections := true |}.

(** The calculator after the local-accumulation pass of the scenario
    (gravity 0, hence no depth correction), for a given default inner
    weight of [commitContribution]. *)
Definition scenario_accumulated (commitDefault : double) : PAvgCalculator :=
  match accumulateLocalContributions (declarations_with commitDefault)
          scenario_sources (scenario_controls 3) 0 0 scenario_calculator with
  | Returns self => self
  | Throws _ self => self
  end.

(** Term averages whose centre sum overflows: two centre samples of
    2^1023 (finite) with unit weight, one rectangular sample of 90. *)
Definition overflowing_terms : Impl.t :=
  Impl.addRectangular 1 90
    (Impl.addCentre 1 0x1p1023 (Impl.addCentre 1 0x1p1023 Impl.zero)).

(** Term averages of the scenario's connection under unit weights. *)
Definition scenario_terms : Impl.t :=
  Impl.addRectangular 1 90 (Impl.addCentre 1 100 Impl.zero).

(** ** Further definitions used by the statements *)

(** [allWellConnections()]: the indices of all connections. *)
Definition allWellConnections (self : PAvgCalculator) : list nat :=
  seq 0 (length (connections_ self)).

(** The helper map and the cell list describe the same assignment of
    positions to global cell ids. *)
Definition cells_indexed (cells : list Z) (m : SetupMap) : Prop :=
  ∀ k i, m !! k = Some i ↔ cells !! i = Some k.

(** [c'] is [c] with at most [r] rectangular and [d] diagonal neighbours
    appended. *)
Definition grown (r d : nat) (c c' : PAvgConnection) : Prop :=
  ctf c' = ctf c ∧ depth c' = depth c ∧ cell c' = cell c
  ∧ rectNeighbours c `prefix_of` rectNeighbours c'
  ∧ diagNeighbours c `prefix_of` diagNeighbours c'
  ∧ length (rectNeighbours c') ≤ length (rectNeighbours c) + r
  ∧ length (diagNeighbours c') ≤ length (diagNeighbours c) + d.

(** A construction step seen from outside: the cell list grows at its
    end, only the last connection changes, nothing else does. *)
Definition extended (r d : nat) (init : list PAvgConnection)
    (c : PAvgConnection) (st st' : PAvgCalculator * SetupMap) : Prop :=
  cells_indexed (contributingCells_ st'.1) st'.2
  ∧ contributingCells_ st.1 `prefix_of` contributingCells_ st'.1
  ∧ openConns_ st'.1 = openConns_ st.1
  ∧ accumCTF_ st'.1 = accumCTF_ st.1
  ∧ accumPV_ st'.1 = accumPV_ st.1
  ∧ averagePressures_ st'.1 = averagePressures_ st.1
  ∧ ∃ c', connections_ st'.1 = init ++ [c'] ∧ grown r d c c'.

Definition kind_count (kind : NeighbourKind) (k : NeighbourKind) : nat :=
  match kind, k with
  | Rectangular, Rectangular | Diagonal, Diagonal => 1
  | _, _ => 0
  end.

Definition offsets_count (kind : NeighbourKind)
    (l : list (Z * Z * Z * NeighbourKind)) : nat :=
  sum_list ((λ o, kind_count kind o.2) <$> l).

(** The calculator's connection [c] stands for the well connection
    [conn]: same CTF and depth, and its cell index designates the
    connection's global cell id. *)
Definition resolves (cells : list Z) (conn : Connection.t) (c : PAvgConnection)
  : Prop :=
  ctf c = Connection.CF conn ∧ depth c = Connection.depth conn
  ∧ cells !! cell c = Some (Connection.global_index conn).

(** Connection number [i] exists and is open. *)
Definition isOpen (connections : list Connection.t) (i : nat) : Prop :=
  Connection.state <$> connections !! i = Some Connection.OPEN.

#[global] Instance isOpen_dec connections i : Decision (isOpen connections i).
Proof. unfold isOpen. apply _. Defined.

(** Every open-connection index is a position of [connections_]. *)
Definition valid_open (self : PAvgCalculator) : Prop :=
  Forall (λ i, i < length (connections_ self)) (openConns_ self).

(** The entries of [l] at the positions the mask marks active. *)
Fixpoint keep_active {A} (isActive : list bool) (l : list A) : list A :=
  match isActive, l with
  | b :: isActive, x :: l =>
      if b then x :: keep_active isActive l else keep_active isActive l
  | _, _ => []
  end.

(** [activeIx] of [pruneInactiveWBPCells]. *)
Definition activeIndices (isActive : list bool) : list nat :=
  filter (λ i, isActive !!! i = true) (seq 0 (length isActive)).

(** Connection [c'] after pruning designates the cells [c] designated
    before, the inactive neighbours left out. *)
Definition same_cells (isActive : list bool) (cells cells' : list Z)
    (c c' : PAvgConnection) : Prop :=
  ctf c' = ctf c ∧ depth c' = depth c
  ∧ (isActive !!! cell c = true → cells' !!! cell c' = cells !!! cell c)
  ∧ (λ i, cells' !!! i) <$> rectNeighbours c'
    = (λ i, cells !!! i)
        <$> filter (λ i, isActive !!! i = true) (rectNeighbours c)
  ∧ (λ i, cells' !!! i) <$> diagNeighbours c'
    = (λ i, cells !!! i)
        <$> filter (λ i, isActive !!! i = true) (diagNeighbours c).

(** A zero of either sign. *)
Definition zeroish (z : double) : Prop := (z = 0 ∨ z = -0)%float.

(** The calculator as a call leaves it, returning or throwing. *)
Definition state_of (o : outcome) : PAvgCalculator :=
  match o with Returns self => self | Throws _ self => self end.

Definition same_topology (self self' : PAvgCalculator) : Prop :=
  contributingCells_ self' = contributingCells_ self
  ∧ connections_ self' = connections_ self
  ∧ openConns_ self' = openConns_ self.

(** Two source data sets with the same samples in the contributing cells
    and at the connections of the calculator. *)
Definition sources_agree (self : PAvgCalculator) (s1 s2 : Sources) : Prop :=
  (∀ g, g ∈ contributingCells_ self → wellBlocks s1 g = wellBlocks s2 g)
  ∧ (∀ i, i < length (connections_ self) → wellConns s1 i = wellConns s2 i).

(** The controls with another inner weight F1. *)
Definition with_inner_weight (F1 : double) (controls : PAvg) : PAvg :=
  {| inner_weight := F1; conn_weight := conn_weight controls;
     depth_correction := depth_correction controls;
     open_connections := open_connections controls |}.

(** *** More fixtures *)

(** The scenario's connection, shut. *)
Definition shut_connection : Connection.t :=
  Connection.Make 0 Connection.SHUT 2%float 10%float Connection.Z.

(** A well with one shut connection: no open connection to process. *)
Definition shut_calculator : PAvgCalculator :=
  PAvgCalculator_new (cartesian 2 1 1) [shut_connection].

(** Two connections in the same cell of the scenario's grid. *)
Definition twin_calculator : PAvgCalculator :=
  PAvgCalculator_new (cartesian 2 1 1) [scenario_connection; shut_connection].

(** The scenario's samples in cells 0 and 1, other samples elsewhere. *)
Definition scenario_sources_elsewhere : Sources :=
  {| wellBlocks := λ g,
       if (g =? 0)%Z
       then {| Pressure := 100; PoreVol := 10; MixtureDensity := 1000 |}
       else if (g =? 1)%Z
       then {| Pressure := 90; PoreVol := 5; MixtureDensity := 1000 |}
       else {| Pressure := 1; PoreVol := 1; MixtureDensity := 1 |};
     wellConns := λ i,
       if decide (i = 0%nat)
       then {| Pressure := 0; PoreVol := 0; MixtureDensity := 1000 |}
       else {| Pressure := 7; PoreVol := 7; MixtureDensity := 7 |} |}%float.


(** * Properties *)

(** ** Binary64 facts behind the accumulator's arithmetic

    Products with 1, quotients by 1 and sums with 0 are exact; they are
    derived from the specification of the primitive operations. *)

Section Binary64.
Local Open Scope Z_scope.

Lemma Prim2SF_one : Prim2SF 1 = SF_one.
Proof. reflexivity. Qed.

Lemma Prim2SF_zero : Prim2SF 0 = S754_zero false.
Proof. reflexivity. Qed.

Lemma bounded_inv m e :
  bounded prec emax m e = true →
  fexp prec emax (Zpos (digits2_pos m) + e) = e ∧ (e <=? emax - prec) = true.
Proof.
  unfold bounded, canonical_mantissa. intros [H1 H2]%andb_true_iff.
  split; [by apply Z.eqb_eq | done].
Qed.

(** Rounding a canonical mantissa leaves it alone. *)
Lemma shr_fexp_canonical m e :
  fexp prec emax (Zpos (digits2_pos m) + e) = e →
  shr_fexp prec emax (Zpos m) e loc_Exact
  = ({| shr_m := Zpos m; shr_r := false; shr_s := false |}, e).
Proof.
  intros Hfexp. unfold shr_fexp. cbn [Zdigits2 shr_record_of_loc].
  by rewrite Hfexp, Z.sub_diag.
Qed.

Lemma binary_round_aux_exact s m e :
  bounded prec emax m e = true →
  binary_round_aux prec emax s (Zpos m) e loc_Exact = S754_finite s m e.
Proof.
  intros [Hfexp Hle]%bounded_inv. unfold binary_round_aux.
  rewrite (shr_fexp_canonical m e Hfexp).
  cbn [shr_m loc_of_shr_record round_nearest_even].
  rewrite (shr_fexp_canonical m e Hfexp). cbn [shr_m]. by rewrite Hle.
Qed.

(** The same mantissa with one more trailing zero bit. *)
Lemma binary_round_aux_shift1 s m e e' :
  bounded prec emax m e = true → e' = e - 1 →
  binary_round_aux prec emax s (Zpos m~0) e' loc_Exact = S754_finite s m e.
Proof.
  intros Hb ->. pose proof Hb as [Hfexp Hle]%bounded_inv.
  unfold binary_round_aux. unfold shr_fexp at 1.
  assert (H1 : fexp prec emax (Zdigits2 (Zpos m~0) + (e - 1)) - (e - 1) = 1).
  { cbn [Zdigits2 digits2_pos]. rewrite Pos2Z.inj_succ.
    replace (Z.succ (Zpos (digits2_pos m)) + (e - 1))
      with (Zpos (digits2_pos m) + e) by lia.
    rewrite Hfexp. lia. }
  rewrite H1.
  cbn [shr shr_record_of_loc SpecFloat.iter_pos shr_1 orb shr_m
       loc_of_shr_record round_nearest_even].
  replace (e - 1 + 1) with e by lia.
  rewrite (shr_fexp_canonical m e Hfexp). cbn [shr_m]. by rewrite Hle.
Qed.

Ltac normalise_Pos_mul :=
  match goal with
  | |- context [Pos.mul ?a ?b] =>
      let t := eval cbv beta iota delta [Pos.mul] in (Pos.mul a b) in
      change (Pos.mul a b) with t
  end.

(** The same mantissa with 52 more trailing zero bits. *)
Lemma binary_round_aux_shift52 s m e e' :
  bounded prec emax m e = true → e' = e - 52 →
  binary_round_aux prec emax s (Zpos (4503599627370496 * m)) e' loc_Exact
  = S754_finite s m e.
Proof.
  intros Hb ->. pose proof Hb as [Hfexp Hle]%bounded_inv.
  unfold binary_round_aux. unfold shr_fexp at 1.
  assert (H1 : fexp prec emax
                 (Zdigits2 (Zpos (4503599627370496 * m)) + (e - 52))
               - (e - 52) = 52).
  { normalise_Pos_mul. cbn [Zdigits2 digits2_pos]. rewrite !Pos2Z.inj_succ.
    match goal with
    | |- fexp _ _ ?a - _ = _ =>
        replace a with (Zpos (digits2_pos m) + e) by lia
    end.
    rewrite Hfexp. lia. }
  rewrite H1. normalise_Pos_mul.
  cbn [shr shr_record_of_loc SpecFloat.iter_pos shr_1 orb shr_m
       loc_of_shr_record round_nearest_even].
  replace (e - 52 + 52) with e by lia.
  rewrite (shr_fexp_canonical m e Hfexp). cbn [shr_m]. by rewrite Hle.
Qed.

Lemma SFmul_1_l x : valid_binary x = true → SF64mul SF_one x = x.
Proof.
  destruct x as [s|s| |s m e].
  - by destruct s.
  - by destruct s.
  - done.
  - cbn [SpecFloat.valid_binary]. intros Hb. unfold SF64mul, SF_one, SFmul.
    cbn [xorb]. apply binary_round_aux_shift52; [done | lia].
Qed.

Lemma div_eucl_mul (a b : Z) : b ≠ 0 → Z.div_eucl (a * b) b = (a, 0).
Proof.
  intros Hb. rewrite (surjective_pairing (Z.div_eucl (a * b) b)).
  change (fst (Z.div_eucl (a * b) b)) with (a * b / b).
  change (snd (Z.div_eucl (a * b) b)) with ((a * b) mod b).
  by rewrite Z.div_mul, Z.mod_mul.
Qed.

(** The quotient's mantissa, exponent and location when dividing by 1;
    the smallest exponent needs no extra bit. *)
Lemma SFdiv_core_binary_one m e :
  bounded prec emax m e = true →
  SFdiv_core_binary prec emax (Zpos m) e 4503599627370496 (-52)
  = (if decide (e = -1074)
     then (Zpos m, e, loc_Exact)
     else (Zpos m~0, e - 1, loc_Exact)).
Proof.
  intros [Hfexp Hle]%bounded_inv. unfold SFdiv_core_binary.
  change (Zdigits2 4503599627370496) with 53.
  cbn [Zdigits2].
  unfold fexp, SpecFloat.emin, prec, emax in *.
  case_decide as He.
  - replace (Z.min _ _) with e by lia.
    replace (e - -52 - e) with 52 by lia.
    rewrite Z.shiftl_mul_pow2 by lia.
    change (2 ^ 52) with 4503599627370496.
    by rewrite div_eucl_mul.
  - replace (Z.min _ _) with (e - 1) by lia.
    replace (e - -52 - (e - 1)) with 53 by lia.
    rewrite Z.shiftl_mul_pow2 by lia.
    change (2 ^ 53) with (2 * 4503599627370496).
    rewrite Z.mul_assoc, div_eucl_mul by done.
    by rewrite (Z.mul_comm (Zpos m) 2).
Qed.

Lemma SFdiv_1_r x : valid_binary x = true → SF64div x SF_one = x.
Proof.
  destruct x as [s|s| |s m e].
  - by destruct s.
  - by destruct s.
  - done.
  - cbn [SpecFloat.valid_binary]. intros Hb. unfold SF64div, SF_one, SFdiv.
    rewrite (SFdiv_core_binary_one m e Hb), xorb_false_r.
    case_decide.
    + by apply binary_round_aux_exact.
    + by apply binary_round_aux_shift1.
Qed.

Lemma SFcompare_refl_finite s m e :
  SFcompare (S754_finite s m e) (S754_finite s m e) = Some Eq.
Proof.
  cbn. rewrite Z.compare_refl.
  change (Pos.compare_cont Eq m m) with (m ?= m)%positive.
  rewrite Pos.compare_refl. by destruct s.
Qed.
End Binary64.

(** *** The same facts on [double] *)

Lemma double_mul_1_l (x : double) : (1 * x)%float = x.
Proof.
  apply Prim2SF_inj. rewrite mul_spec, Prim2SF_one.
  apply SFmul_1_l, Prim2SF_valid.
Qed.

Lemma double_div_1_r (x : double) : (x / 1)%float = x.
Proof.
  apply Prim2SF_inj. rewrite div_spec, Prim2SF_one.
  apply SFdiv_1_r, Prim2SF_valid.
Qed.

Lemma isfinite_SF (x : double) : isfinite x = true → SF_finite (Prim2SF x).
Proof.
  unfold isfinite. rewrite classify_spec. unfold SF64classify, SFclassify.
  destruct (Prim2SF x) as [s|s| |s m e]; try destruct s; try discriminate;
    intros _; constructor.
Qed.

(** A finite double times 0 is a zero of either sign. *)
Lemma double_mul_0_l_finite (x : double) :
  isfinite x = true → (0 * x = 0 ∨ 0 * x = -0)%float.
Proof.
  intros Hx%isfinite_SF.
  assert (H : ∃ s, Prim2SF (0 * x) = S754_zero s).
  { rewrite mul_spec, Prim2SF_zero. destruct Hx; cbn; eauto. }
  destruct H as [[] H]; [right | left]; by apply Prim2SF_inj.
Qed.

(** [0 + x] is [x], except that a negative zero becomes positive. *)
Lemma Prim2SF_add_0_l (x : double) :
  Prim2SF (0 + x) = match Prim2SF x with
                    | S754_zero _ => S754_zero false
                    | sx => sx
                    end.
Proof.
  rewrite add_spec, Prim2SF_zero.
  by destruct (Prim2SF x) as [[]|[]| |s m e].
Qed.

Lemma double_add_0_l_idem (x : double) : (0 + (0 + x) = 0 + x)%float.
Proof.
  apply Prim2SF_inj. rewrite (Prim2SF_add_0_l (0 + x)), Prim2SF_add_0_l.
  by destruct (Prim2SF x).
Qed.

Lemma double_add_0_r_after (x : double) : (0 + x + 0 = 0 + x)%float.
Proof.
  apply Prim2SF_inj. rewrite add_spec, Prim2SF_add_0_l, Prim2SF_zero.
  by destruct (Prim2SF x) as [[]|[]| |s m e].
Qed.

Lemma double_add_0_l_finite (x : double) :
  isfinite x = true → isfinite (0 + x) = true.
Proof.
  unfold isfinite. rewrite !classify_spec, Prim2SF_add_0_l.
  by destruct (Prim2SF x) as [[]|[]| |s m e].
Qed.

(** [0 + x == x] for a finite [x]. *)
Lemma double_add_0_l_eqb (x : double) :
  isfinite x = true → (0 + x =? x)%float = true.
Proof.
  intros Hx%isfinite_SF. rewrite FloatAxioms.eqb_spec, Prim2SF_add_0_l.
  unfold SFeqb. destruct Hx as [s|s m e].
  - done.
  - by rewrite SFcompare_refl_finite.
Qed.

(** The error term of the first Kahan step: [x + (0 - x)] is [0]. *)
Lemma double_add_sub_cancel (x : double) :
  isfinite x = true → (x + (0 - x) = 0)%float.
Proof.
  intros Hx%isfinite_SF. apply Prim2SF_inj.
  rewrite add_spec, sub_spec, Prim2SF_zero.
  destruct Hx as [s|s m e].
  - by destruct s.
  - unfold SF64add, SF64sub. cbn [SFsub SFadd].
    rewrite Z.min_id. unfold shl_align. rewrite Z.sub_diag. cbn [fst].
    replace (cond_Zopp s (Zpos m) + cond_Zopp (negb s) (Zpos m))%Z with 0%Z.
    + done.
    + destruct s; cbn [cond_Zopp negb]; lia.
Qed.

(** [w == 0] makes the guard [abs(w) > 0] of [value] fail. *)
Lemma eqb_zero_not_lt_abs (w : double) :
  (w =? 0)%float = true → (0 <? abs w)%float = false.
Proof.
  rewrite FloatAxioms.eqb_spec, FloatAxioms.ltb_spec, FloatAxioms.abs_spec.
  rewrite Prim2SF_zero.
  destruct (Prim2SF w) as [s|s| |s m e]; try destruct s; cbn; congruence.
Qed.

(** ** Compensated summation from a cleared sum *)

Lemma kahan_zero_term (a : double) :
  (a = 0 ∨ a = -0)%float → RCS.add_assign a RCS.zero = RCS.zero.
Proof. by intros [-> | ->]. Qed.

Lemma kahan_first_value (x : double) :
  RCS.value_ (RCS.add_assign x RCS.zero) = (0 + x)%float.
Proof. cbn. apply double_add_0_l_idem. Qed.

Lemma kahan_first_err (x : double) :
  isfinite x = true → RCS.err_ (RCS.add_assign x RCS.zero) = 0%float.
Proof.
  intros Hx. cbn. rewrite double_add_0_l_idem.
  by apply double_add_sub_cancel, double_add_0_l_finite.
Qed.

Lemma kahan_first (x : double) :
  isfinite x = true →
  RCS.add_assign x RCS.zero
  = {| RCS.value_ := (0 + x)%float; RCS.err_ := 0%float |}.
Proof.
  intros Hx.
  pose proof (kahan_first_value x) as Hv.
  pose proof (kahan_first_err x Hx) as He.
  destruct (RCS.add_assign x RCS.zero). cbn in *. by subst.
Qed.

(** WBP5 of [combineWeighted] on a cleared average, inner weight 0. *)
Lemma wbp5_weight_zero (v0 v1 : double) :
  isfinite v0 = true →
  value (WRA.add v1 (1 - 0) (WRA.add v0 0 WRA.zero)) = (0 + v1)%float.
Proof.
  intros H0. unfold WRA.add at 2. cbn [WRA.sum_ WRA.weight_ WRA.zero].
  rewrite (kahan_zero_term (0 * v0)) by by apply double_mul_0_l_finite.
  unfold value, WRA.weight, WRA.sum, WRA.add. cbn [WRA.sum_ WRA.weight_].
  change (RCS.value_ (RCS.add_assign (1 - 0) (RCS.add_assign 0 RCS.zero)))
    with 1%float.
  change (0 <? abs 1)%float with true. cbn iota.
  change (1 - 0)%float with 1%float.
  by rewrite kahan_first_value, double_mul_1_l, double_div_1_r.
Qed.

(** WBP5 of [combineWeighted] on a cleared average, inner weight 1. *)
Lemma wbp5_weight_one (v0 v1 : double) :
  isfinite v0 = true → isfinite v1 = true →
  value (WRA.add v1 (1 - 1) (WRA.add v0 1 WRA.zero)) = (0 + v0)%float.
Proof.
  intros H0 H1. unfold WRA.add at 2. cbn [WRA.sum_ WRA.weight_ WRA.zero].
  rewrite double_mul_1_l, (kahan_first v0 H0).
  unfold value, WRA.weight, WRA.sum, WRA.add. cbn [WRA.sum_ WRA.weight_].
  change (RCS.value_ (RCS.add_assign (1 - 1) (RCS.add_assign 1 RCS.zero)))
    with 1%float.
  change (0 <? abs 1)%float with true. cbn iota.
  change (1 - 1)%float with 0%float.
  rewrite double_div_1_r. unfold RCS.add_assign. cbn [RCS.value_ RCS.err_].
  destruct (double_mul_0_l_finite v1 H1) as [-> | ->].
  - change (0 + 0)%float with 0%float. apply double_add_0_r_after.
  - change (0 + -0)%float with 0%float. apply double_add_0_r_after.
Qed.

(** ** Weighted running averages and the accumulator *)

(** C5: [value] returns [sum / weight] when the absolute value of the
    accumulated weight is greater than zero, and exactly [0] when the
    accumulated weight compares equal to zero (a zero of either sign): no
    division takes place, so the result is neither NaN nor infinite. *)
Theorem value_guarded (avg : WRA.t) :
  ((0 <? abs (WRA.weight avg))%float = true →
   value avg = (WRA.sum avg / WRA.weight avg)%float)
  ∧ ((WRA.weight avg =? 0)%float = true → value avg = 0%float).
Proof.
  unfold value. split; intros H.
  - by rewrite H.
  - by rewrite (eqb_zero_not_lt_abs _ H).
Qed.

Lemma value_guarded_witness :
  value (WRA.add 90 5 WRA.zero) = (450 / 5)%float
  ∧ value (WRA.add 90 0 WRA.zero) = 0%float.
Proof.
  split.
  - apply (proj1 (value_guarded (WRA.add 90 5 WRA.zero))). reflexivity.
  - apply (proj2 (value_guarded (WRA.add 90 0 WRA.zero))). reflexivity.
Defined.

(** C2: with a negative inner weight, [commitContribution] adds the centre
    and rectangular terms directly to the WBP5 result, the centre,
    rectangular and diagonal terms directly to the WBP9 result (the centre
    term to WBP and the rectangular term to WBP4, as always), and any
    other negative weight gives the same accumulator. *)
Theorem commitContribution_negative_weight (self : Impl.t) (w : double) :
  (w <? 0)%float = true →
  Impl.commitContribution w self
  = (let a := Impl.avg_ self in
     let tm := Impl.term_ self in
     {| Impl.avg_ :=
          Array4 (WRA.add_assign (tm0 tm) (at0 a))
                 (WRA.add_assign (tm1 tm) (at1 a))
                 (WRA.add_assign (tm1 tm) (WRA.add_assign (tm0 tm) (at2 a)))
                 (WRA.add_assign (tm2 tm)
                    (WRA.add_assign (tm1 tm)
                       (WRA.add_assign (tm0 tm) (at3 a))));
        Impl.term_ := tm |})
  ∧ ∀ w' : double, (w' <? 0)%float = true →
      Impl.commitContribution w' self = Impl.commitContribution w self.
Proof.
  intros H. unfold Impl.commitContribution. rewrite H. split; [done|].
  intros w' H'. by rewrite H'.
Qed.

Lemma commitContribution_negative_weight_witness :
  (-1 <? 0)%float = true
  ∧ WRA.sum (at3 (Impl.avg_ (Impl.commitContribution (-1) scenario_terms))) = 190%float
  ∧ Impl.commitContribution (-250) scenario_terms
    = Impl.commitContribution (-1) scenario_terms.
Proof.
  pose proof (commitContribution_negative_weight scenario_terms (-1) eq_refl)
    as [Hstate Hsame].
  split; [reflexivity | split].
  - rewrite Hstate. reflexivity.
  - apply Hsame. reflexivity.
Defined.

(** C3, amended: starting from cleared result averages and term averages
    whose centre and rectangular values are finite, [commitContribution]
    with inner weight 0 makes the WBP5 value compare equal to the
    rectangular term's value, and with inner weight 1 to the centre term's
    value. *)
Theorem commitContribution_weight_zero_one (self : Impl.t) :
  isfinite (value (tm0 (Impl.term_ self))) = true →
  isfinite (value (tm1 (Impl.term_ self))) = true →
  (Impl.getAverageValue WBP5
     (Impl.commitContribution 0 (Impl.prepareAccumulation self))
   =? value (tm1 (Impl.term_ self)))%float = true
  ∧ (Impl.getAverageValue WBP5
       (Impl.commitContribution 1 (Impl.prepareAccumulation self))
     =? value (tm0 (Impl.term_ self)))%float = true.
Proof.
  intros H0 H1. split.
  - change (Impl.getAverageValue WBP5
              (Impl.commitContribution 0 (Impl.prepareAccumulation self)))
      with (value (WRA.add (value (tm1 (Impl.term_ self))) (1 - 0)
                     (WRA.add (value (tm0 (Impl.term_ self))) 0 WRA.zero))).
    rewrite wbp5_weight_zero by done. by apply double_add_0_l_eqb.
  - change (Impl.getAverageValue WBP5
              (Impl.commitContribution 1 (Impl.prepareAccumulation self)))
      with (value (WRA.add (value (tm1 (Impl.term_ self))) (1 - 1)
                     (WRA.add (value (tm0 (Impl.term_ self))) 1 WRA.zero))).
    rewrite wbp5_weight_one by done. by apply double_add_0_l_eqb.
Qed.

Lemma commitContribution_weight_zero_one_witness :
  (Impl.getAverageValue WBP5
     (Impl.commitContribution 0 (Impl.prepareAccumulation scenario_terms))
   =? value (tm1 (Impl.term_ scenario_terms)))%float = true
  ∧ (Impl.getAverageValue WBP5
       (Impl.commitContribution 1 (Impl.prepareAccumulation scenario_terms))
     =? value (tm0 (Impl.term_ scenario_terms)))%float = true.
Proof.
  apply (commitContribution_weight_zero_one scenario_terms); reflexivity.
Defined.

(** C3 as stated fails: the centre term below holds two finite samples
    whose sum overflows; its value is infinite, the product with the
    inner weight 0 is NaN, and WBP5 is NaN instead of the rectangular
    term's value 90. *)
Lemma commitContribution_weight_zero_overflow :
  value (tm1 (Impl.term_ overflowing_terms)) = 90%float
  ∧ Impl.getAverageValue WBP5
      (Impl.commitContribution 0 (Impl.prepareAccumulation overflowing_terms))
    = nan
  ∧ (Impl.getAverageValue WBP5
       (Impl.commitContribution 0 (Impl.prepareAccumulation overflowing_terms))
     =? value (tm1 (Impl.term_ overflowing_terms)))%float = false.
Proof. split; [|split]; vm_compute; reflexivity. Qed.

(** C10: [assignRunningAverages] applied to the buffer of
    [getRunningAverages] gives each of the four result averages the sum
    and the weight that were extracted, so [getFinalResult] yields the
    same four pressures; on the accumulator the buffer came from, nothing
    changes at all. *)
Theorem running_averages_round_trip (self other : Impl.t) :
  let r := Impl.assignRunningAverages (Impl.getRunningAverages self) other in
  (∀ type,
     WRA.sum (array4.get (Impl.avg_ r) type)
     = WRA.sum (array4.get (Impl.avg_ self) type)
     ∧ WRA.weight (array4.get (Impl.avg_ r) type)
       = WRA.weight (array4.get (Impl.avg_ self) type))
  ∧ getFinalResult r = getFinalResult self
  ∧ Impl.assignRunningAverages (Impl.getRunningAverages self) self = self.
Proof.
  destruct self as [[a0 a1 a2 a3] tm], other as [[b0 b1 b2 b3] tm'].
  cbn. split; [|split].
  - by intros [].
  - done.
  - by destruct a0 as [[] []], a1 as [[] []], a2 as [[] []], a3 as [[] []].
Qed.

(** ** Topology: construction and pruning *)

Lemma foldl_invariant {A B} (P : A → Prop) (f : A → B → A) (l : list B) (a : A) :
  P a → (∀ a b, b ∈ l → P a → P (f a b)) → P (foldl f a l).
Proof.
  revert a. induction l as [|b l IH]; intros a Ha Hf; [done|].
  cbn. apply IH.
  - apply Hf; [left | done].
  - intros a' b' Hb'. apply Hf. by right.
Qed.

Lemma filter_all {A} (P : A → Prop) `{∀ x, Decision (P x)} (l : list A) :
  Forall P l → filter P l = l.
Proof.
  induction 1 as [|x l Hx _ IH]; [done|].
  rewrite filter_cons_True by done. by rewrite IH.
Qed.

Lemma all_true_lookup (isActive : list bool) (i : nat) :
  Forall (λ b, b = true) isActive → i < length isActive →
  isActive !!! i = true.
Proof.
  intros Hall Hi.
  destruct (lookup_lt_is_Some_2 isActive i Hi) as [b Hb].
  rewrite (list_lookup_total_correct _ _ _ Hb).
  by eapply (Forall_lookup_1 (λ b, b = true)).
Qed.

(** C8: with an all-true activity mask, [pruneInactiveWBPCells] returns
    the calculator unchanged: the contributing-cell list and every
    connection's cell index and neighbour lists are what they were.  The
    mask may have any length, in particular that of the cell list. *)
Theorem pruneInactiveWBPCells_all_active
    (isActive : list bool) (self : PAvgCalculator) :
  Forall (λ b, b = true) isActive →
  pruneInactiveWBPCells isActive self = self.
Proof.
  intros Hall. unfold pruneInactiveWBPCells.
  rewrite filter_all; [by rewrite decide_True|].
  apply Forall_forall. intros i Hi%elem_of_seq.
  apply all_true_lookup; [done | lia].
Qed.

Lemma pruneInactiveWBPCells_all_active_witness :
  length [true; true] = length (contributingCells_ scenario_calculator)
  ∧ pruneInactiveWBPCells [true; true] scenario_calculator
    = scenario_calculator.
Proof.
  split; [reflexivity|].
  apply (pruneInactiveWBPCells_all_active [true; true] scenario_calculator).
  repeat constructor.
Defined.

Lemma valid_connection_mono n m conn :
  n ≤ m → valid_connection n conn → valid_connection m conn.
Proof.
  intros Hnm (Hc & Hr & Hd). repeat split.
  - lia.
  - eapply Forall_impl; [exact Hr|]. intros; simpl in *; lia.
  - eapply Forall_impl; [exact Hd|]. intros; simpl in *; lia.
Qed.

Lemma valid_push_neighbour n kind ix conn :
  ix < n → valid_connection n conn →
  valid_connection n (push_neighbour kind ix conn).
Proof.
  intros Hix (Hc & Hr & Hd). destruct kind; repeat split; cbn; try done.
  - apply Forall_app; split; [done|]. by repeat constructor.
  - apply Forall_app; split; [done|]. by repeat constructor.
Qed.

Lemma Forall_update_back (P : PAvgConnection → Prop) f conns :
  Forall P conns → (∀ c, P c → P (f c)) → Forall P (update_back f conns).
Proof.
  intros Hall Hf. destruct conns as [|c conns]; [done|].
  unfold update_back. apply Forall_insert; [done|]. apply Hf.
  set (cs := c :: conns) in *.
  assert (Hlt : pred (length cs) < length cs) by (subst cs; cbn; lia).
  destruct (lookup_lt_is_Some_2 cs _ Hlt) as [x Hx].
  rewrite (list_lookup_total_correct _ _ _ Hx).
  by eapply Forall_lookup_1.
Qed.

(** [emplace] hands out a position of the cell list as it will be after
    the push that follows an insertion. *)
Lemma emplace_bound key n (m : SetupMap) :
  map_Forall (λ _ pos, pos < n) m →
  let '(m', pos, inserted) := emplace key n m in
  snd pos < (if inserted then S n else n)
  ∧ map_Forall (λ _ pos, pos < (if inserted then S n else n)) m'.
Proof.
  intros Hm. unfold emplace. destruct (m !! key) as [old|] eqn:E; cbn.
  - split; [by apply (Hm key)|done].
  - split; [lia|]. apply map_Forall_insert_2; [lia|].
    eapply map_Forall_impl; [exact Hm|]. intros; simpl in *; lia.
Qed.

Lemma length_pushed_cells (inserted : bool) (cells : list Z) (key : Z) :
  length (if inserted then cells ++ [key] else cells)
  = if inserted then S (length cells) else length cells.
Proof. destruct inserted; [rewrite length_app; cbn; lia | done]. Qed.

Lemma addNeighbour_invariant neighbour kind st :
  setup_invariant st → setup_invariant (addNeighbour neighbour kind st).
Proof.
  destruct st as [self m]. intros [Hv Hm]. cbn in Hv, Hm.
  unfold addNeighbour. destruct neighbour as [n|]; [|done].
  pose proof (emplace_bound n (length (contributingCells_ self)) m Hm) as He.
  destruct (emplace n (length (contributingCells_ self)) m)
    as [[m' pos] inserted].
  destruct He as [Hpos Hm'].
  split; cbn.
  - unfold valid_indices. cbn. rewrite length_pushed_cells.
    apply Forall_update_back.
    + eapply Forall_impl; [exact Hv|]. intros c. apply valid_connection_mono.
      destruct inserted; lia.
    + intros c. by apply valid_push_neighbour.
  - by rewrite length_pushed_cells.
Qed.

Lemma addNeighbours_invariant d grid st :
  setup_invariant st → setup_invariant (addNeighbours d grid st).
Proof.
  intros Hst. unfold addNeighbours.
  destruct (getIJK grid (lastConnsCell st.1)) as [[i j] k].
  apply (foldl_invariant setup_invariant); [done|].
  intros st' [[[di dj] dk] kind] _. apply addNeighbour_invariant.
Qed.

Lemma addConnection_invariant grid conn st :
  setup_invariant st → setup_invariant (addConnection grid conn st).
Proof.
  destruct st as [self m]. intros [Hv Hm]. cbn in Hv, Hm.
  unfold addConnection.
  pose proof (emplace_bound (Connection.global_index conn)
                (length (contributingCells_ self)) m Hm) as He.
  destruct (emplace _ (length (contributingCells_ self)) m)
    as [[m' pos] inserted].
  destruct He as [Hpos Hm'].
  match goal with
  | |- setup_invariant (match _ with Connection.X => _ ?s | _ => _ end) =>
      assert (Hs : setup_invariant s)
  end.
  { split; cbn.
    - unfold valid_indices. cbn. rewrite length_pushed_cells.
      apply Forall_app. split.
      + eapply Forall_impl; [exact Hv|]. intros c. apply valid_connection_mono.
        destruct inserted; lia.
      + repeat constructor; cbn. done.
    - by rewrite length_pushed_cells. }
  destruct (Connection.dir conn); by apply addNeighbours_invariant.
Qed.

Lemma constructor_valid grid conns :
  valid_indices (PAvgCalculator_new grid conns).
Proof.
  unfold PAvgCalculator_new.
  apply (foldl_invariant setup_invariant).
  - split; cbn; [constructor | apply map_Forall_empty].
  - intros st conn _. apply addConnection_invariant.
Qed.

Lemma lookup_total_bound (l : list nat) (n i : nat) :
  0 < n → Forall (λ v, v < n) l → l !!! i < n.
Proof.
  intros Hn Hl. rewrite list_lookup_total_alt.
  destruct (l !! i) as [v|] eqn:E; cbn; [|done].
  by eapply (Forall_lookup_1 (λ v, v < n)).
Qed.

Lemma renumber_bound isActive newIndex neighbours n :
  0 < n → Forall (λ v, v < n) newIndex →
  Forall (λ v, v < n) (renumber isActive newIndex neighbours).
Proof.
  intros Hn Hl. unfold renumber.
  apply (foldl_invariant (Forall (λ v, v < n))); [constructor|].
  intros acc neighbour _ Hacc. destruct (isActive !!! neighbour); [|done].
  apply Forall_app. split; [done|]. repeat constructor.
  by apply lookup_total_bound.
Qed.

(** Every entry of [newIndex] is a position of the compacted cell list,
    the zeros left in inactive cells included, once one cell is active. *)
Lemma newIndex_bound (activeIx : list nat) (n : nat) :
  0 < length activeIx →
  Forall (λ v, v < length activeIx)
    (foldl (λ newIndex i, <[activeIx !!! i := i]> newIndex)
           (replicate n 0) (seq 0 (length activeIx))).
Proof.
  intros Hpos.
  apply (foldl_invariant (Forall (λ v, v < length activeIx))).
  - by apply Forall_replicate.
  - intros newIndex i Hi%elem_of_seq Hall. apply Forall_insert; [done | lia].
Qed.

Lemma pruneInactiveWBPCells_valid (isActive : list bool) (self : PAvgCalculator) :
  valid_indices self →
  connections_ self = [] ∨ (∃ i, isActive !! i = Some true) →
  valid_indices (pruneInactiveWBPCells isActive self).
Proof.
  intros Hvalid Hactive. unfold pruneInactiveWBPCells.
  set (activeIx := filter (λ i, isActive !!! i = true)
                          (seq 0 (length isActive))).
  case_decide as Hall; [done|].
  unfold valid_indices. cbn. rewrite length_fmap.
  destruct Hactive as [-> | [i Hi]]; [constructor|].
  assert (Hpos : 0 < length activeIx).
  { assert (Hin : i ∈ activeIx).
    { apply list_elem_of_filter. split.
      - by rewrite (list_lookup_total_correct _ _ _ Hi).
      - apply elem_of_seq. apply lookup_lt_Some in Hi. lia. }
    destruct activeIx; [by apply not_elem_of_nil in Hin | cbn; lia]. }
  apply Forall_fmap, Forall_forall. intros conn _.
  pose proof (newIndex_bound activeIx (length (seq 0 (length isActive))) Hpos)
    as Hnew.
  repeat split; cbn.
  - by apply lookup_total_bound.
  - by apply renumber_bound.
  - by apply renumber_bound.
Qed.

(** C9, amended: every cell index and every rectangular or diagonal
    neighbour index stored in a connection is a valid index into the
    contributing-cell array; the constructor ([addConnection],
    [addNeighbour]) establishes this, and [pruneInactiveWBPCells]
    preserves it for every activity mask of matching length that keeps at
    least one cell active (or when there is no connection). *)
Theorem valid_indices_established_and_preserved :
  (∀ (cellIndexMap : GridDims) (connections : list Connection.t),
     valid_indices (PAvgCalculator_new cellIndexMap connections))
  ∧ (∀ (isActive : list bool) (self : PAvgCalculator),
       valid_indices self →
       length isActive = length (contributingCells_ self) →
       connections_ self = [] ∨ (∃ i, isActive !! i = Some true) →
       valid_indices (pruneInactiveWBPCells isActive self)).
Proof.
  split.
  - apply constructor_valid.
  - intros isActive self Hvalid _ Hactive.
    by apply pruneInactiveWBPCells_valid.
Qed.

Lemma valid_indices_established_and_preserved_witness :
  valid_indices scenario_calculator
  ∧ valid_indices (pruneInactiveWBPCells [true; false] scenario_calculator).
Proof.
  destruct valid_indices_established_and_preserved as [Hnew Hprune].
  split.
  - apply Hnew.
  - apply Hprune.
    + apply Hnew.
    + reflexivity.
    + right. exists 0. reflexivity.
Defined.

(** C9 as stated fails: a mask of matching length that marks every cell
    inactive empties the contributing-cell list, while the connection
    keeps cell index 0 (the zero [newIndex] holds for an inactive cell). *)
Lemma prune_all_inactive_breaks_indices :
  valid_indices scenario_calculator
  ∧ length [false; false] = length (contributingCells_ scenario_calculator)
  ∧ contributingCells_
      (pruneInactiveWBPCells [false; false] scenario_calculator) = []
  ∧ cell <$> connections_
      (pruneInactiveWBPCells [false; false] scenario_calculator) = [0]
  ∧ ¬ valid_indices (pruneInactiveWBPCells [false; false] scenario_calculator).
Proof.
  split; [apply constructor_valid|].
  split; [reflexivity|]. split; [reflexivity|]. split; [reflexivity|].
  intros Hvalid. apply Forall_inv in Hvalid as [Hcell _].
  vm_compute in Hcell. lia.
Qed.

(** ** Pressure offsets *)

(** C6: when the depth-correction mode is NONE, or gravity is not a normal
    number (zero included), [connectionPressureOffset] returns one zero
    per processed connection, whatever the sources hold: no density is
    read. *)
Theorem connectionPressureOffset_no_correction
    decl sources controls gravity refDepth self :
  depth_correction controls = DepthCorrection_NONE decl
  ∨ isnormal gravity = false ∨ gravity = 0%float →
  connectionPressureOffset decl sources controls gravity refDepth self
  = inr (replicate (processedConnections controls self) 0%float)
  ∧ ∀ sources',
      connectionPressureOffset decl sources' controls gravity refDepth self
      = connectionPressureOffset decl sources controls gravity refDepth self.
Proof.
  intros H.
  assert (Hg : (depth_correction controls =? DepthCorrection_NONE decl)%Z
               || negb (isnormal gravity) = true).
  { destruct H as [-> | [-> | ->]].
    - by rewrite Z.eqb_refl.
    - apply orb_true_r.
    - apply orb_true_r. }
  unfold connectionPressureOffset, processedConnections. rewrite Hg.
  by split.
Qed.

Lemma connectionPressureOffset_no_correction_witness :
  connectionPressureOffset test_declarations scenario_sources
    (scenario_controls 1) 0 0 scenario_calculator
  = inr [0%float].
Proof.
  apply (connectionPressureOffset_no_correction test_declarations
           scenario_sources (scenario_controls 1) 0 0 scenario_calculator).
  right. right. reflexivity.
Defined.

(** With a recognised mode the offsets are returned, whatever gravity is. *)
Lemma connectionPressureOffset_returns
    decl sources controls gravity refDepth self :
  recognised decl (depth_correction controls) ∨ isnormal gravity = false →
  ∃ connDP,
    connectionPressureOffset decl sources controls gravity refDepth self
    = inr connDP.
Proof.
  unfold recognised, connectionPressureOffset. intros H.
  destruct (Z.eqb_spec (depth_correction controls) (DepthCorrection_NONE decl))
    as [E1|E1]; [eauto|].
  destruct (isnormal gravity); cbn [negb orb]; [|eauto].
  destruct (Z.eqb_spec (depth_correction controls) (DepthCorrection_RES decl))
    as [E2|E2]; [destruct (open_connections controls); cbn [negb]; eauto|].
  destruct (Z.eqb_spec (depth_correction controls) (DepthCorrection_WELL decl))
    as [E3|E3]; [destruct (open_connections controls); cbn [negb]; eauto|].
  destruct H as [[?|[?|?]]|?]; done.
Qed.

Lemma connectionPressureOffset_throws
    decl sources controls gravity refDepth self :
  isnormal gravity = true →
  ¬ recognised decl (depth_correction controls) →
  connectionPressureOffset decl sources controls gravity refDepth self
  = inl (invalid_argument
           (unsupported_flag_message (depth_correction controls))).
Proof.
  unfold recognised, connectionPressureOffset. intros -> Hn.
  destruct (Z.eqb_spec (depth_correction controls) (DepthCorrection_NONE decl))
    as [E1|E1]; [tauto|].
  destruct (Z.eqb_spec (depth_correction controls) (DepthCorrection_RES decl))
    as [E2|E2]; [tauto|].
  destruct (Z.eqb_spec (depth_correction controls) (DepthCorrection_WELL decl))
    as [E3|E3]; [tauto|].
  done.
Qed.

(** C7: given a normal gravity, [connectionPressureOffset] throws if and
    only if the depth-correction mode is none of NONE, WELL, RES; the
    exception is [std::invalid_argument] and its message carries the
    mode's integer value; for a recognised mode offsets are returned. *)
Theorem connectionPressureOffset_throws_iff
    decl sources controls gravity refDepth self :
  isnormal gravity = true →
  ((∃ e, connectionPressureOffset decl sources controls gravity refDepth self
         = inl e)
   ↔ ¬ recognised decl (depth_correction controls))
  ∧ (¬ recognised decl (depth_correction controls) →
     connectionPressureOffset decl sources controls gravity refDepth self
     = inl (invalid_argument
              ("Unsupported WPAVE depth correction flag '"
               +:+ pretty (depth_correction controls) +:+ "'")))
  ∧ (recognised decl (depth_correction controls) →
     ∃ connDP,
       connectionPressureOffset decl sources controls gravity refDepth self
       = inr connDP).
Proof.
  intros Hg. split; [split|split].
  - intros [e He] Hr.
    destruct (connectionPressureOffset_returns decl sources controls gravity
                refDepth self (or_introl Hr)) as [connDP Hdp].
    congruence.
  - intros Hn. eexists.
    by apply connectionPressureOffset_throws.
  - intros Hn. by apply connectionPressureOffset_throws.
  - intros Hr. apply connectionPressureOffset_returns. by left.
Qed.

Lemma connectionPressureOffset_throws_iff_witness :
  connectionPressureOffset test_declarations scenario_sources
    (scenario_controls 7) 10 0 scenario_calculator
  = inl (invalid_argument "Unsupported WPAVE depth correction flag '7'")
  ∧ ∃ connDP,
      connectionPressureOffset test_declarations scenario_sources
        (scenario_controls 1) 10 0 scenario_calculator
      = inr connDP.
Proof.
  split.
  - apply (connectionPressureOffset_throws_iff test_declarations
             scenario_sources (scenario_controls 7) 10 0 scenario_calculator
             eq_refl).
    unfold recognised. cbn. intros [H|[H|H]]; discriminate H.
  - apply (connectionPressureOffset_throws_iff test_declarations
             scenario_sources (scenario_controls 1) 10 0 scenario_calculator
             eq_refl).
    right. left. reflexivity.
Defined.

(** ** The accumulation pass and the published result *)

Lemma prepare_is_zero (acc : Impl.t) :
  Impl.prepareContribution (Impl.prepareAccumulation acc) = Impl.zero.
Proof. done. Qed.

(** [addContrib] over a neighbour list acts on the two accumulators
    independently. *)
Lemma foldl_addContrib sources w self dp handler (l : list nat) accs :
  foldl (λ accs i, addContrib sources w self i dp handler accs) accs l
  = (foldl (λ acc i, addSample sources w self i dp handler acc) accs.1 l,
     foldl (λ acc i, addSample sources poreVolWeight self i dp handler acc)
           accs.2 l).
Proof.
  revert accs. induction l as [|i l IH]; intros [a b]; [done|].
  cbn [foldl]. by rewrite IH.
Qed.

(** One iteration: the per-connection accumulator starts from zero
    whatever the previous iteration left in it. *)
Lemma accumulateConnection_split sources controls connDP connIndex w self
    aCTF aPV c connID :
  accumulateConnection sources controls connDP connIndex w self
                       (aCTF, aPV, c) connID
  = (Impl.add (ctf (connections_ self !!! connIndex connID))
       (committedConnection sources controls connDP connIndex w self connID)
       aCTF,
     connectionSamples sources poreVolWeight connDP connIndex self aPV connID,
     committedConnection sources controls connDP connIndex w self connID).
Proof.
  unfold accumulateConnection, committedConnection, connectionSamples.
  rewrite prepare_is_zero. cbn [handlers foldl].
  by rewrite !foldl_addContrib.
Qed.

Lemma accumulate_loop sources controls connDP connIndex w self
    (l : list nat) aCTF aPV c :
  (foldl (accumulateConnection sources controls connDP connIndex w self)
         (aCTF, aPV, c) l).1
  = (foldl (λ outer connID,
              Impl.add (ctf (connections_ self !!! connIndex connID))
                (committedConnection sources controls connDP connIndex w
                                     self connID)
                outer) aCTF l,
     foldl (connectionSamples sources poreVolWeight connDP connIndex self)
           aPV l).
Proof.
  revert aCTF aPV c. induction l as [|connID l IH]; intros aCTF aPV c; [done|].
  cbn [foldl]. rewrite accumulateConnection_split. apply IH.
Qed.

(** C1, amended: in every run of the local-accumulation loop, each
    connection's committed per-connection accumulator is folded into the
    CTF-based outer accumulator by [add(weight, other)] with the
    connection's CTF as weight.  The pore-volume-based accumulator has no
    per-connection accumulator: every cell sample of every connection
    goes to its term averages weighted by the cell's pore volume, and the
    terms are committed once, after the last connection. *)
Theorem accumulation_folds_ctf_and_pools_pv
    decl sources controls connDP connIndex ctfPressWeight self :
  let r := accumulateLocalContributions_weighted decl sources controls connDP
             connIndex ctfPressWeight self in
  accumCTF_ r
  = foldedByAdd (Impl.prepareContribution (accumCTF_ self))
      ((λ connID,
          (ctf (connections_ self !!! connIndex connID),
           committedConnection sources controls connDP connIndex
                               ctfPressWeight self connID))
         <$> seq 0 (length connDP))
  ∧ accumPV_ r
    = Impl.commitContribution (commitContribution_default decl)
        (foldl (connectionSamples sources poreVolWeight connDP connIndex self)
               (Impl.prepareContribution (accumPV_ self))
               (seq 0 (length connDP))).
Proof.
  cbn zeta. unfold accumulateLocalContributions_weighted.
  cbn [accumCTF_ accumPV_ set_accumulators].
  rewrite accumulate_loop. cbn [fst snd]. split; [|done].
  unfold foldedByAdd. by rewrite foldl_fmap.
Qed.

(** Whatever is folded in by [add], the WBP and WBP4 results receive the
    same weights. *)
Lemma foldedByAdd_weights start contributions :
  WRA.weight_ (at0 (Impl.avg_ start)) = WRA.weight_ (at1 (Impl.avg_ start)) →
  WRA.weight_ (at0 (Impl.avg_ (foldedByAdd start contributions)))
  = WRA.weight_ (at1 (Impl.avg_ (foldedByAdd start contributions))).
Proof.
  unfold foldedByAdd. revert start.
  induction contributions as [|[w other] l IH]; intros start Hs; [done|].
  cbn [foldl]. apply IH. cbn. by rewrite Hs.
Qed.

(** C1 as stated fails for the pore-volume pass: in the scenario of
    section 8 the results of [accumPV_] are not those of any sequence of
    [add(weight, other)] calls on the cleared accumulator, whatever the
    weights, the per-connection accumulators and the default inner weight
    of [commitContribution]: WBP carries the centre cell's pore volume 10
    as weight, WBP4 the neighbour's pore volume 5. *)
Lemma pv_pass_is_not_folded_by_add :
  ¬ ∃ (commitDefault : double) (contributions : list (double * Impl.t)),
      Impl.avg_ (accumPV_ (scenario_accumulated commitDefault))
      = Impl.avg_ (foldedByAdd
                     (Impl.prepareAccumulation (accumPV_ scenario_calculator))
                     contributions).
Proof.
  intros (commitDefault & contributions & H).
  pose proof (foldedByAdd_weights
                (Impl.prepareAccumulation (accumPV_ scenario_calculator))
                contributions eq_refl) as Hw.
  rewrite <- H in Hw. vm_compute in Hw.
  destruct (commitDefault <? 0)%float; discriminate Hw.
Qed.




(** ** The scenarios of section 8, run on the model *)

(** One connection, one rectangular neighbour, F1 = 0.5, F2 = 1, gravity
    0: WBP = 100, WBP4 = 90, WBP5 = WBP9 = 95. *)
Example scenario_end_to_end :
  ∃ self',
    inferBlockAveragePressures test_declarations scenario_sources
      (scenario_controls 3) 0 0 scenario_calculator
    = Returns self'
    ∧ Result.wbp_ (averagePressures_ self')
      = Array4 100%float 90%float 95%float 95%float.
Proof. eexists. split; [reflexivity | vm_compute; reflexivity]. Qed.

(** Depth correction WELL: density 1000, connection depth 10, reference
    depth 0, gravity 10 give the offset -100000; RES gives the same here,
    the density being uniform. *)
Example scenario_well_offset :
  connectionPressureOffset test_declarations scenario_sources
    (scenario_controls 1) 10 0 scenario_calculator
  = inr [(-100000)%float]
  ∧ connectionPressureOffset test_declarations scenario_sources
      (scenario_controls 2) 10 0 scenario_calculator
    = inr [(-100000)%float].
Proof. split; vm_compute; reflexivity. Qed.

(** The topology of the scenario: cells 0 and 1, the connection in cell
    0 with cell 1 as its only neighbour; pruning the neighbour away drops
    it from the connection. *)
Example scenario_topology :
  contributingCells_ scenario_calculator = [0%Z; 1%Z]
  ∧ connections_ scenario_calculator
    = [{| ctf := 2; depth := 10; cell := 0;
          rectNeighbours := [1]; diagNeighbours := [] |}]
  ∧ openConns_ scenario_calculator = [0]
  ∧ connections_ (pruneInactiveWBPCells [true; false] scenario_calculator)
    = [{| ctf := 2; depth := 10; cell := 0;
          rectNeighbours := []; diagNeighbours := [] |}].
Proof. repeat split. Qed.

(** * Further properties of the code *)

(** ** The constructor *)

Lemma grown_refl c : grown 0 0 c c.
Proof. unfold grown. split_and!; try done; lia. Qed.

Lemma grown_trans r1 d1 r2 d2 c1 c2 c3 :
  grown r1 d1 c1 c2 → grown r2 d2 c2 c3 → grown (r1 + r2) (d1 + d2) c1 c3.
Proof.
  intros (?&?&?&?&?&?&?) (?&?&?&?&?&?&?). unfold grown.
  split_and!; try congruence; try (by etrans); lia.
Qed.

Lemma grown_push kind ix c :
  grown (kind_count Rectangular kind) (kind_count Diagonal kind) c
        (push_neighbour kind ix c).
Proof.
  unfold grown. destruct kind; cbn; split_and!; try done;
    try (by apply prefix_app_r); rewrite ?length_app; cbn; lia.
Qed.

Lemma update_back_snoc f init (c : PAvgConnection) :
  update_back f (init ++ [c]) = init ++ [f c].
Proof.
  unfold update_back. destruct (init ++ [c]) eqn:E.
  { by destruct init. }
  rewrite <- E. rewrite length_app. cbn.
  replace (pred (length init + 1)) with (length init + 0) by lia.
  rewrite lookup_total_app_r by lia.
  replace (length init + 0 - length init) with 0 by lia. cbn.
  by rewrite insert_app_r.
Qed.

(** [emplace] followed by the conditional [push_back] keeps the map and
    the cell list in step, and the position handed out designates the
    key. *)
Lemma emplace_indexed key cells (m : SetupMap) :
  cells_indexed cells m →
  let '(m', pos, inserted) := emplace key (length cells) m in
  let cells' := if inserted then cells ++ [pos.1] else cells in
  cells_indexed cells' m' ∧ cells `prefix_of` cells'
  ∧ cells' !! pos.2 = Some key.
Proof.
  intros Hm. unfold emplace. destruct (m !! key) as [old|] eqn:E; cbn.
  - split; [done|]. split; [done|]. by apply Hm.
  - split; [|split].
    + intros k i. destruct (decide (k = key)) as [->|Hk].
      * rewrite lookup_insert_eq. split.
        -- intros [= <-]. by rewrite list_lookup_middle.
        -- intros Hi. f_equal.
           destruct (decide (i < length cells)) as [Hlt|Hge].
           ++ rewrite lookup_app_l in Hi by done.
              apply Hm in Hi. congruence.
           ++ apply lookup_lt_Some in Hi. rewrite length_app in Hi.
              cbn in Hi. lia.
      * rewrite lookup_insert_ne by done. split.
        -- intros Hi%Hm. rewrite lookup_app_l; [done|].
           by eapply lookup_lt_Some.
        -- intros Hi. apply Hm.
           apply lookup_snoc_Some in Hi as [[_ Hi]|[_ Hi]];
             [done | congruence].
    + by apply prefix_app_r.
    + by rewrite list_lookup_middle.
Qed.

Lemma addNeighbour_extended neighbour kind self m init c :
  cells_indexed (contributingCells_ self) m →
  connections_ self = init ++ [c] →
  extended (kind_count Rectangular kind) (kind_count Diagonal kind) init c
           (self, m) (addNeighbour neighbour kind (self, m)).
Proof.
  intros Hm Hc. unfold addNeighbour. destruct neighbour as [n|].
  - pose proof (emplace_indexed n (contributingCells_ self) m Hm) as He.
    destruct (emplace n (length (contributingCells_ self)) m)
      as [[m' pos] inserted].
    destruct He as (Hm' & Hpre & _).
    unfold extended. cbn. split_and!; try done.
    rewrite Hc, update_back_snoc. eexists. split; [done|]. apply grown_push.
  - unfold extended. cbn. split_and!; try done.
    exists c. split; [done|].
    eapply (grown_trans 0 0 _ _ c c c); [apply grown_refl|].
    destruct kind; cbn; unfold grown; split_and!; try done; lia.
Qed.

Lemma extended_trans r1 d1 r2 d2 init c st st1 st2 :
  extended r1 d1 init c st st1 →
  (∀ c1, connections_ st1.1 = init ++ [c1] → extended r2 d2 init c1 st1 st2) →
  extended (r1 + r2) (d1 + d2) init c st st2.
Proof.
  intros (_ & Hpre & Ho & Ha & Hb & Hr & c1 & Hc1 & Hg) H2.
  destruct (H2 c1 Hc1)
    as (Hm2 & Hpre2 & Ho2 & Ha2 & Hb2 & Hr2 & c2 & Hc2 & Hg2).
  unfold extended. split_and!; try done; try congruence; try (by etrans).
  exists c2. split; [done|]. by eapply grown_trans.
Qed.

Lemma addNeighbour_fold_extended grid i j k
    (l : list (Z * Z * Z * NeighbourKind)) st init c :
  cells_indexed (contributingCells_ st.1) st.2 →
  connections_ st.1 = init ++ [c] →
  extended (offsets_count Rectangular l) (offsets_count Diagonal l) init c st
    (foldl (λ st '(di, dj, dk, kind),
              addNeighbour
                (globalCellIndex grid (size_t_wrap (i + di))
                   (size_t_wrap (j + dj)) (size_t_wrap (k + dk)))
                kind st) st l).
Proof.
  revert st c.
  induction l as [|[[[di dj] dk] kind] l IH]; intros [self m] c Hm Hc.
  - cbn. unfold extended. split_and!; try done.
    exists c. split; [done | apply grown_refl].
  - cbn [foldl]. unfold offsets_count. cbn [fmap list_fmap sum_list snd].
    eapply extended_trans.
    + by apply addNeighbour_extended.
    + intros c1 Hc1. apply IH; [|done].
      by destruct (addNeighbour_extended
                     (globalCellIndex grid (size_t_wrap (i + di))
                        (size_t_wrap (j + dj)) (size_t_wrap (k + dk)))
                     kind self m init c Hm Hc) as (? & _).
Qed.

(** Each of [addNeighbours_X], [_Y], [_Z] appends at most four
    rectangular and four diagonal neighbours to the last connection. *)
Lemma addNeighbours_extended d grid st init c :
  cells_indexed (contributingCells_ st.1) st.2 →
  connections_ st.1 = init ++ [c] →
  extended 4 4 init c st (addNeighbours d grid st).
Proof.
  intros Hm Hc. unfold addNeighbours.
  destruct (getIJK grid (lastConnsCell st.1)) as [[i j] k].
  pose proof (addNeighbour_fold_extended grid i j k (neighbourOffsets d)
                st init c Hm Hc) as H.
  by destruct d.
Qed.

(** What one [addConnection] does. *)
Lemma addConnection_effect grid conn self m :
  cells_indexed (contributingCells_ self) m →
  let st' := addConnection grid conn (self, m) in
  cells_indexed (contributingCells_ st'.1) st'.2
  ∧ contributingCells_ self `prefix_of` contributingCells_ st'.1
  ∧ openConns_ st'.1
    = openConns_ self
      ++ (if decide (Connection.state conn = Connection.OPEN)
          then [length (connections_ self)] else [])
  ∧ accumCTF_ st'.1 = accumCTF_ self
  ∧ accumPV_ st'.1 = accumPV_ self
  ∧ averagePressures_ st'.1 = averagePressures_ self
  ∧ ∃ c', connections_ st'.1 = connections_ self ++ [c']
          ∧ ctf c' = Connection.CF conn
          ∧ depth c' = Connection.depth conn
          ∧ contributingCells_ st'.1 !! cell c'
            = Some (Connection.global_index conn)
          ∧ length (rectNeighbours c') ≤ 4
          ∧ length (diagNeighbours c') ≤ 4.
Proof.
  intros Hm. cbn zeta. unfold addConnection.
  pose proof (emplace_indexed (Connection.global_index conn)
                (contributingCells_ self) m Hm) as He.
  destruct (emplace _ (length (contributingCells_ self)) m)
    as [[m' pos] inserted].
  destruct He as (Hm' & Hpre & Hpos).
  match goal with
  | |- context [match Connection.dir conn with
                | Connection.X => addNeighbours_X grid ?s | _ => _ end] =>
      set (st1 := s)
  end.
  assert (Hext : extended 4 4 (connections_ self)
                   {| ctf := Connection.CF conn; depth := Connection.depth conn;
                      cell := pos.2; rectNeighbours := [];
                      diagNeighbours := [] |}
                   st1 (addNeighbours (Connection.dir conn) grid st1)).
  { by apply addNeighbours_extended. }
  replace (match Connection.dir conn with
           | Connection.X => addNeighbours_X grid st1
           | Connection.Y => addNeighbours_Y grid st1
           | Connection.Z => addNeighbours_Z grid st1
           end) with (addNeighbours (Connection.dir conn) grid st1)
    by by destruct (Connection.dir conn).
  destruct Hext as (Hm2 & Hpre2 & Ho & Ha & Hb & Hr & c' & Hc' & Hg).
  destruct Hg as (Hctf & Hdepth & Hcell & _ & _ & Hlr & Hld). cbn in *.
  split_and!; try done.
  - by etrans.
  - rewrite Ho. case_decide; [done | by rewrite app_nil_r].
  - exists c'. split_and!; try done.
    rewrite Hcell. by eapply prefix_lookup_Some.
Qed.

Lemma filter_ext_in {A} (P Q : A → Prop) `{∀ x, Decision (P x)}
    `{∀ x, Decision (Q x)} (l : list A) :
  (∀ x, x ∈ l → P x ↔ Q x) → filter P l = filter Q l.
Proof.
  induction l as [|a l IH]; intros HPQ; [done|].
  rewrite !filter_cons.
  rewrite IH by (intros x Hx; apply HPQ; by right).
  destruct (decide (P a)) as [Hp|Hp], (decide (Q a)) as [Hq|Hq]; try done.
  - destruct Hq. apply HPQ; [left | done].
  - destruct Hp. apply HPQ; [left | done].
Qed.

(** The invariant of the constructor's loop, after any list of
    connections. *)
Lemma construction_invariant grid conns :
  let st := foldl (λ st conn, addConnection grid conn st)
                  (empty_calculator, ∅) conns in
  cells_indexed (contributingCells_ st.1) st.2
  ∧ Forall2 (resolves (contributingCells_ st.1)) conns (connections_ st.1)
  ∧ Forall (λ c, length (rectNeighbours c) ≤ 4 ∧ length (diagNeighbours c) ≤ 4)
           (connections_ st.1)
  ∧ openConns_ st.1 = filter (isOpen conns) (seq 0 (length conns))
  ∧ accumCTF_ st.1 = Impl.zero ∧ accumPV_ st.1 = Impl.zero
  ∧ averagePressures_ st.1 = Result.zero.
Proof.
  induction conns as [|conn conns IH] using rev_ind.
  - cbn. split_and!; done.
  - cbn zeta in *. rewrite foldl_snoc.
    destruct (foldl _ _ conns) as [self m]. cbn [fst snd] in IH.
    destruct IH as (Hm & Hres & Hcount & Hopen & Ha & Hb & Hr).
    destruct (addConnection_effect grid conn self m Hm)
      as (Hm' & Hpre & Ho & Ha' & Hb' & Hr' & c' & Hc' & Hctf & Hdepth & Hcell
          & Hlr & Hld).
    split_and!; try congruence; try done.
    + rewrite Hc'. apply Forall2_app.
      * eapply Forall2_impl; [exact Hres|].
        intros x y (? & ? & ?). split_and!; try done.
        by eapply prefix_lookup_Some.
      * constructor; [by split_and! | constructor].
    + rewrite Hc'. apply Forall_app. split; [done|]. by apply Forall_singleton.
    + assert (Hlen : length (connections_ self) = length conns)
        by (symmetry; by eapply Forall2_length).
      rewrite Ho, Hopen, Hlen, length_app. cbn [length].
      replace (length conns + 1) with (S (length conns)) by lia.
      rewrite seq_S, filter_app, Nat.add_0_l. f_equal.
      * apply filter_ext_in. intros i Hi%elem_of_seq. unfold isOpen.
        by rewrite lookup_app_l by lia.
      * rewrite filter_cons, filter_nil.
        assert (Hlast : isOpen (conns ++ [conn]) (length conns)
                        ↔ Connection.state conn = Connection.OPEN).
        { unfold isOpen. rewrite list_lookup_middle by done. cbn.
          split; congruence. }
        destruct (decide (Connection.state conn = Connection.OPEN)) as [E|E].
        -- rewrite decide_True; [done | by apply Hlast].
        -- rewrite decide_False; [done | by rewrite Hlast].
Qed.

(** X1: the constructor enters every global cell id once: the
    contributing-cell list has no duplicates, however often a cell is
    met as a connection's cell or as a neighbour. *)
Theorem constructor_cells_nodup grid conns :
  NoDup (contributingCells_ (PAvgCalculator_new grid conns)).
Proof.
  destruct (construction_invariant grid conns) as (Hm & _).
  apply NoDup_alt. intros i j g Hi%Hm Hj%Hm. unfold PAvgCalculator_new in *.
  congruence.
Qed.

(** X2: the constructor keeps one connection per well connection, in
    order, with the connection's CTF and depth, and a cell index that
    designates the connection's global cell id. *)
Theorem constructor_connections_resolve grid conns :
  Forall2 (resolves (contributingCells_ (PAvgCalculator_new grid conns)))
          conns (connections_ (PAvgCalculator_new grid conns)).
Proof. by destruct (construction_invariant grid conns) as (_ & H & _). Qed.

(** X3: two connections get the same cell index exactly when they are
    in the same global cell. *)
Theorem constructor_shared_cell grid conns i j conn_i conn_j c_i c_j :
  conns !! i = Some conn_i → conns !! j = Some conn_j →
  connections_ (PAvgCalculator_new grid conns) !! i = Some c_i →
  connections_ (PAvgCalculator_new grid conns) !! j = Some c_j →
  cell c_i = cell c_j
  ↔ Connection.global_index conn_i = Connection.global_index conn_j.
Proof.
  intros Hi Hj Hci Hcj.
  destruct (construction_invariant grid conns) as (Hm & Hres & _).
  cbn zeta in *. fold (PAvgCalculator_new grid conns) in Hm, Hres.
  destruct (Forall2_lookup_lr _ _ _ _ _ _ Hres Hi Hci) as (_ & _ & Hgi).
  destruct (Forall2_lookup_lr _ _ _ _ _ _ Hres Hj Hcj) as (_ & _ & Hgj).
  split.
  - intros Heq. rewrite Heq in Hgi. congruence.
  - intros Heq. rewrite Heq in Hgi. apply Hm in Hgi, Hgj. congruence.
Qed.

Lemma constructor_shared_cell_witness :
  cell (connections_ twin_calculator !!! 0)
  = cell (connections_ twin_calculator !!! 1)
  ↔ Connection.global_index scenario_connection
    = Connection.global_index shut_connection.
Proof.
  apply (constructor_shared_cell (cartesian 2 1 1)
           [scenario_connection; shut_connection] 0 1);
    reflexivity.
Defined.

(** X4: every connection has at most four rectangular and at most four
    diagonal neighbours. *)
Theorem constructor_neighbour_counts grid conns :
  Forall (λ c, length (rectNeighbours c) ≤ 4 ∧ length (diagNeighbours c) ≤ 4)
         (connections_ (PAvgCalculator_new grid conns)).
Proof. by destruct (construction_invariant grid conns) as (_ & _ & H & _). Qed.

(** X5: [openConns_] lists the indices of the open connections, in
    increasing order, and every entry is a position of [connections_]. *)
Theorem constructor_open_connections grid conns :
  openConns_ (PAvgCalculator_new grid conns)
  = filter (isOpen conns) (seq 0 (length conns))
  ∧ valid_open (PAvgCalculator_new grid conns).
Proof.
  destruct (construction_invariant grid conns) as (_ & Hres & _ & H & _).
  cbn zeta in *. fold (PAvgCalculator_new grid conns) in H, Hres.
  split; [done|]. unfold valid_open. rewrite H.
  apply Forall_forall. intros i [_ Hi%elem_of_seq]%list_elem_of_filter.
  rewrite <- (Forall2_length _ _ _ Hres). lia.
Qed.

Lemma construction_continues grid (more : list Connection.t) st :
  cells_indexed (contributingCells_ st.1) st.2 →
  let st' := foldl (λ st conn, addConnection grid conn st) st more in
  contributingCells_ st.1 `prefix_of` contributingCells_ st'.1
  ∧ connections_ st.1 `prefix_of` connections_ st'.1
  ∧ openConns_ st.1 `prefix_of` openConns_ st'.1.
Proof.
  revert st. induction more as [|conn more IH]; intros [self m] Hm; [done|].
  cbn [foldl]. cbn zeta.
  destruct (addConnection_effect grid conn self m Hm)
    as (Hm' & Hpre & Ho & _ & _ & _ & c' & Hc' & _).
  destruct (IH _ Hm') as (H1 & H2 & H3). cbn [fst snd] in *.
  split_and!.
  - by etrans.
  - etrans; [|exact H2]. rewrite Hc'. by apply prefix_app_r.
  - etrans; [|exact H3]. rewrite Ho. by apply prefix_app_r.
Qed.

(** X6: construction is incremental: further connections leave the
    cells entered so far at their positions, and the connections built
    so far, their neighbour lists included, and the open-connection
    indices as they are; new entries go to the end. *)
Theorem constructor_incremental grid conns more :
  contributingCells_ (PAvgCalculator_new grid conns)
    `prefix_of` contributingCells_ (PAvgCalculator_new grid (conns ++ more))
  ∧ connections_ (PAvgCalculator_new grid conns)
      `prefix_of` connections_ (PAvgCalculator_new grid (conns ++ more))
  ∧ openConns_ (PAvgCalculator_new grid conns)
      `prefix_of` openConns_ (PAvgCalculator_new grid (conns ++ more)).
Proof.
  unfold PAvgCalculator_new. rewrite foldl_app.
  apply construction_continues.
  by destruct (construction_invariant grid conns) as (Hm & _).
Qed.

(** ** Pruning inactive cells *)

Lemma filter_length_all {A} (P : A → Prop) `{∀ x, Decision (P x)} (l : list A) :
  length (filter P l) = length l → Forall P l.
Proof.
  intros Hlen. apply Forall_forall. intros x Hx.
  destruct (decide (P x)) as [|Hn]; [done|].
  pose proof (length_filter_lt P l x Hx Hn). lia.
Qed.

(** The early return is taken only for an all-true mask. *)
Lemma all_active_mask (isActive : list bool) :
  length (activeIndices isActive) = length (seq 0 (length isActive)) →
  Forall (λ b, b = true) isActive.
Proof.
  intros Hall%filter_length_all. apply Forall_lookup. intros i b Hi.
  rewrite Forall_forall in Hall.
  specialize (Hall i). rewrite (list_lookup_total_correct _ _ _ Hi) in Hall.
  apply Hall, elem_of_seq. apply lookup_lt_Some in Hi. lia.
Qed.

Lemma keep_active_all {A} (isActive : list bool) (l : list A) :
  Forall (λ b, b = true) isActive → length isActive = length l →
  keep_active isActive l = l.
Proof.
  intros Hall. revert l. induction Hall as [|b isActive -> _ IH];
    intros [|x l] Hlen; try done.
  cbn. f_equal. apply IH. cbn in Hlen. lia.
Qed.

Lemma fmap_active_keep {A} `{!Inhabited A} (pre_m : list bool) (pre_l : list A)
    (isActive : list bool) (l : list A) :
  length pre_m = length pre_l → length isActive = length l →
  (λ i, (pre_l ++ l) !!! i)
    <$> filter (λ i, (pre_m ++ isActive) !!! i = true)
               (seq (length pre_m) (length isActive))
  = keep_active isActive l.
Proof.
  revert pre_m pre_l l.
  induction isActive as [|b isActive IH]; intros pre_m pre_l [|x l] Hpre Hlen;
    try done.
  cbn [length seq keep_active]. rewrite filter_cons.
  rewrite (list_lookup_total_middle pre_m isActive b (length pre_m) eq_refl).
  assert (IH' := IH (pre_m ++ [b]) (pre_l ++ [x]) l).
  rewrite !length_app in IH'. cbn [length] in IH'.
  rewrite <- !app_assoc in IH'. cbn [app] in IH'.
  replace (length pre_m + 1) with (S (length pre_m)) in IH' by lia.
  destruct b.
  - rewrite decide_True by done. cbn [fmap list_fmap]. f_equal.
    + rewrite Hpre. by apply list_lookup_total_middle.
    + apply IH'; [lia | cbn in Hlen; lia].
  - rewrite decide_False by done. apply IH'; [lia | cbn in Hlen; lia].
Qed.

(** The loop over a neighbour list: filter by the mask, then renumber. *)
Lemma renumber_spec isActive newIndex neighbours :
  renumber isActive newIndex neighbours
  = (λ n, newIndex !!! n) <$> filter (λ n, isActive !!! n = true) neighbours.
Proof.
  unfold renumber.
  enough (H : ∀ acc,
             foldl (λ newNeighbour neighbour,
                      if isActive !!! neighbour : bool
                      then newNeighbour ++ [newIndex !!! neighbour]
                      else newNeighbour) acc neighbours
             = acc ++ ((λ n, newIndex !!! n)
                         <$> filter (λ n, isActive !!! n = true) neighbours))
    by apply (H []).
  induction neighbours as [|n neighbours IH]; intros acc.
  - cbn. by rewrite app_nil_r.
  - cbn [foldl]. rewrite IH, filter_cons. destruct (isActive !!! n).
    + rewrite decide_True by done. by rewrite <- app_assoc.
    + by rewrite decide_False by done.
Qed.

(** [newIndex] sends the [p]-th active position to [p]. *)
Lemma newIndex_lookup (activeIx : list nat) (n L p : nat) :
  NoDup activeIx → Forall (λ i, i < n) activeIx →
  L ≤ length activeIx → p < L →
  foldl (λ newIndex i, <[activeIx !!! i := i]> newIndex)
        (replicate n 0) (seq 0 L) !!! (activeIx !!! p) = p.
Proof.
  intros Hnd Hlt. revert p.
  assert (Hlen : ∀ L,
             length (foldl (λ newIndex i, <[activeIx !!! i := i]> newIndex)
                           (replicate n 0) (seq 0 L)) = n).
  { clear. intros L. induction L as [|L IH].
    - apply length_replicate.
    - rewrite seq_S, foldl_snoc, length_insert. apply IH. }
  induction L as [|L IH]; intros p HL Hp; [lia|].
  rewrite seq_S, foldl_snoc, Nat.add_0_l.
  assert (HL' : L < length activeIx) by lia.
  destruct (lookup_lt_is_Some_2 activeIx L HL') as [kL HkL].
  destruct (decide (p = L)) as [->|Hne].
  - rewrite list_lookup_total_insert_eq; [done|]. rewrite Hlen.
    rewrite (list_lookup_total_correct _ _ _ HkL).
    by eapply (Forall_lookup_1 (λ i, i < n)).
  - assert (Hp' : p < length activeIx) by lia.
    destruct (lookup_lt_is_Some_2 activeIx p Hp') as [kp Hkp].
    rewrite list_lookup_total_insert_ne.
    + apply IH; lia.
    + rewrite (list_lookup_total_correct _ _ _ HkL),
        (list_lookup_total_correct _ _ _ Hkp).
      intros ->. apply Hne. by eapply NoDup_lookup.
Qed.

Lemma activeIndices_NoDup isActive : NoDup (activeIndices isActive).
Proof. apply NoDup_filter, NoDup_seq. Qed.

Lemma activeIndices_bound isActive :
  Forall (λ i, i < length isActive) (activeIndices isActive).
Proof.
  apply Forall_forall. intros i [_ Hi%elem_of_seq]%list_elem_of_filter. lia.
Qed.

(** The renumbered index of an active position designates the same cell. *)
Lemma renumbered_cell (isActive : list bool) (cells : list Z) (n : nat) :
  n < length isActive → isActive !!! n = true →
  ((λ origCell, cells !!! origCell) <$> activeIndices isActive)
    !!! (foldl (λ newIndex i, <[activeIndices isActive !!! i := i]> newIndex)
               (replicate (length (seq 0 (length isActive))) 0)
               (seq 0 (length (activeIndices isActive))) !!! n)
  = cells !!! n.
Proof.
  intros Hlt' Hn.
  assert (Hin : n ∈ activeIndices isActive).
  { apply list_elem_of_filter. split; [done|]. apply elem_of_seq. lia. }
  apply list_elem_of_lookup_1 in Hin as [p Hp].
  pose proof (lookup_lt_Some _ _ _ Hp) as Hlt.
  rewrite <- (list_lookup_total_correct _ _ _ Hp).
  rewrite length_seq.
  rewrite newIndex_lookup;
    [|apply activeIndices_NoDup | apply activeIndices_bound | done | done].
  rewrite (list_lookup_total_fmap (λ origCell, cells !!! origCell)) by done.
  done.
Qed.

Lemma renumbered_neighbours (isActive : list bool) (cells : list Z)
    (neighbours : list nat) :
  Forall (λ i, i < length isActive) neighbours →
  let newIndex :=
    foldl (λ newIndex i, <[activeIndices isActive !!! i := i]> newIndex)
          (replicate (length (seq 0 (length isActive))) 0)
          (seq 0 (length (activeIndices isActive))) in
  (λ i, ((λ origCell, cells !!! origCell) <$> activeIndices isActive) !!! i)
    <$> renumber isActive newIndex neighbours
  = (λ i, cells !!! i) <$> filter (λ i, isActive !!! i = true) neighbours.
Proof.
  intros Hvalid. cbn zeta. rewrite renumber_spec, <- list_fmap_compose.
  apply Forall_fmap_ext_1. apply Forall_forall.
  intros n [Hn Hin]%list_elem_of_filter. cbn. apply renumbered_cell; [|done].
  rewrite Forall_forall in Hvalid. by apply Hvalid.
Qed.

(** X7: for a mask of matching length, [pruneInactiveWBPCells] keeps
    exactly the cells the mask marks active, in their order; it keeps
    the number of connections, and never touches the open-connection
    list, the accumulators or the published result. *)
Theorem prune_keeps_active_cells (isActive : list bool) (self : PAvgCalculator) :
  length isActive = length (contributingCells_ self) →
  contributingCells_ (pruneInactiveWBPCells isActive self)
  = keep_active isActive (contributingCells_ self)
  ∧ length (connections_ (pruneInactiveWBPCells isActive self))
    = length (connections_ self)
  ∧ openConns_ (pruneInactiveWBPCells isActive self) = openConns_ self
  ∧ accumCTF_ (pruneInactiveWBPCells isActive self) = accumCTF_ self
  ∧ accumPV_ (pruneInactiveWBPCells isActive self) = accumPV_ self
  ∧ averagePressures_ (pruneInactiveWBPCells isActive self)
    = averagePressures_ self.
Proof.
  intros Hlen. unfold pruneInactiveWBPCells.
  fold (activeIndices isActive). case_decide as Hall.
  - split_and!; try done.
    by rewrite keep_active_all by eauto using all_active_mask.
  - cbn. split_and!; try done.
    + apply (fmap_active_keep [] [] isActive (contributingCells_ self)); done.
    + apply length_fmap.
Qed.

Lemma prune_keeps_active_cells_witness :
  contributingCells_ (pruneInactiveWBPCells [true; false] scenario_calculator)
  = [0%Z]
  ∧ length (connections_
              (pruneInactiveWBPCells [true; false] scenario_calculator)) = 1.
Proof.
  pose proof (prune_keeps_active_cells [true; false] scenario_calculator
                eq_refl) as (Hcells & Hconns & _).
  split; [exact Hcells | exact Hconns].
Defined.

(** X8: for a calculator with valid indices and a mask of matching
    length, pruning renumbers without changing what is designated: each
    connection keeps its CTF and depth; if its cell is active, its new
    cell index designates the same global cell; and its new neighbour
    lists designate, in order, the global cells of its active former
    neighbours, the inactive ones being dropped. *)
Theorem prune_renumbers_faithfully (isActive : list bool) (self : PAvgCalculator) :
  valid_indices self →
  length isActive = length (contributingCells_ self) →
  Forall2 (same_cells isActive (contributingCells_ self)
             (contributingCells_ (pruneInactiveWBPCells isActive self)))
          (connections_ self)
          (connections_ (pruneInactiveWBPCells isActive self)).
Proof.
  intros Hvalid Hlen. unfold pruneInactiveWBPCells.
  fold (activeIndices isActive). case_decide as Hall.
  - apply all_active_mask in Hall.
    apply Forall_Forall2_diag. eapply Forall_impl; [exact Hvalid|].
    intros c (Hc & Hr & Hd). unfold same_cells. split_and!; try done.
    + rewrite filter_all; [done|]. eapply Forall_impl; [exact Hr|].
      intros i Hi. cbn in *. apply all_true_lookup; [done | lia].
    + rewrite filter_all; [done|]. eapply Forall_impl; [exact Hd|].
      intros i Hi. cbn in *. apply all_true_lookup; [done | lia].
  - cbn [connections_ contributingCells_ set_topology].
    apply Forall2_fmap_r, Forall_Forall2_diag.
    eapply Forall_impl; [exact Hvalid|].
    intros c (Hc & Hr & Hd). rewrite <- Hlen in Hc, Hr, Hd.
    unfold same_cells. cbn. split_and!; try done.
    + intros Hact. by apply renumbered_cell.
    + by apply renumbered_neighbours.
    + by apply renumbered_neighbours.
Qed.

Lemma prune_renumbers_faithfully_witness :
  Forall2 (same_cells [false; true] [0%Z; 1%Z] [1%Z])
          (connections_ scenario_calculator)
          (connections_ (pruneInactiveWBPCells [false; true] scenario_calculator)).
Proof.
  apply (prune_renumbers_faithfully [false; true] scenario_calculator).
  - repeat constructor.
  - reflexivity.
Defined.

(** ** More binary64 facts: zeros of either sign *)

Lemma Prim2SF_zeroish z : zeroish z → ∃ s, Prim2SF z = S754_zero s.
Proof. intros [-> | ->]; eexists; reflexivity. Qed.

Lemma zeroish_SF z s : Prim2SF z = S754_zero s → zeroish z.
Proof. intros H. destruct s; [right | left]; by apply Prim2SF_inj. Qed.

Lemma zeroish_mul_l z x : zeroish z → isfinite x = true → zeroish (z * x)%float.
Proof.
  intros [s Hz]%Prim2SF_zeroish Hx%isfinite_SF.
  assert (H : ∃ s', Prim2SF (z * x) = S754_zero s').
  { rewrite mul_spec, Hz. destruct Hx; cbn; eauto. }
  destruct H as [s' H]. by eapply zeroish_SF.
Qed.

Lemma zeroish_mul_r x z : isfinite x = true → zeroish z → zeroish (x * z)%float.
Proof.
  intros Hx%isfinite_SF [s Hz]%Prim2SF_zeroish.
  assert (H : ∃ s', Prim2SF (x * z) = S754_zero s').
  { rewrite mul_spec, Hz. destruct Hx; cbn; eauto. }
  destruct H as [s' H]. by eapply zeroish_SF.
Qed.

Lemma zeroish_eqb z : zeroish z → (z =? 0)%float = true.
Proof. by intros [-> | ->]. Qed.

Lemma double_sub_diag x : isfinite x = true → (x - x = 0)%float.
Proof.
  intros Hx%isfinite_SF. apply Prim2SF_inj. rewrite sub_spec, Prim2SF_zero.
  destruct Hx as [s|s m e].
  - by destruct s.
  - unfold SF64sub. cbn [SFsub].
    rewrite Z.min_id. unfold shl_align. rewrite (Z.sub_diag e). cbn [fst].
    by rewrite Z.sub_diag.
Qed.

Lemma double_add_zeroish_r x z :
  isfinite x = true → zeroish z → (x + z =? x)%float = true.
Proof.
  intros Hx%isfinite_SF [s Hz]%Prim2SF_zeroish.
  rewrite FloatAxioms.eqb_spec, add_spec, Hz. unfold SFeqb.
  destruct Hx as [s'|s' m e].
  - by destruct s, s'.
  - cbn [SF64add SFadd]. by rewrite SFcompare_refl_finite.
Qed.

Lemma double_add_zeroish_l z y :
  zeroish z → isfinite y = true → (z + y =? y)%float = true.
Proof.
  intros [s Hz]%Prim2SF_zeroish Hy%isfinite_SF.
  rewrite FloatAxioms.eqb_spec, add_spec, Hz. unfold SFeqb.
  destruct Hy as [s'|s' m e].
  - by destruct s, s'.
  - cbn [SF64add SFadd]. by rewrite SFcompare_refl_finite.
Qed.

(** ** Numeric helpers and the accumulator, continued *)

(** X9: a connection at the reference depth gets no pressure offset:
    for finite density, depth and gravity, [pressureOffset] with the
    reference depth equal to the connection depth compares equal to
    zero. *)
Theorem pressureOffset_at_reference_depth density depth gravity :
  isfinite density = true → isfinite depth = true → isfinite gravity = true →
  (pressureOffset density depth gravity depth =? 0)%float = true.
Proof.
  intros Hd Hz Hg. unfold pressureOffset. rewrite double_sub_diag by done.
  apply zeroish_eqb, zeroish_mul_l; [|done].
  apply zeroish_mul_r; [done | by left].
Qed.

Lemma pressureOffset_at_reference_depth_witness :
  (pressureOffset 1000 10 9.75 10 =? 0)%float = true.
Proof.
  apply (pressureOffset_at_reference_depth 1000 10 9.75); reflexivity.
Defined.

(** X10: one finite sample added with the default weight 1 to a cleared
    average is the average: [value] compares equal to the sample. *)
Theorem single_unit_sample_average (avg : WRA.t) (x : double) :
  isfinite x = true →
  (value (WRA.add x 1 (WRA.clear avg)) =? x)%float = true.
Proof.
  intros Hx. unfold value, WRA.weight, WRA.sum, WRA.add, WRA.clear.
  cbn [WRA.sum_ WRA.weight_].
  change (RCS.clear (WRA.sum_ avg)) with RCS.zero.
  change (RCS.value_ (RCS.add_assign 1 (RCS.clear (WRA.weight_ avg))))
    with 1%float.
  change (0 <? abs 1)%float with true. cbn iota.
  rewrite kahan_first_value, double_mul_1_l, double_div_1_r.
  by apply double_add_0_l_eqb.
Qed.

Lemma single_unit_sample_average_witness :
  (value (WRA.add 0.125 1 (WRA.clear (tm0 (Impl.term_ overflowing_terms))))
   =? 0.125)%float = true.
Proof.
  apply (single_unit_sample_average (tm0 (Impl.term_ overflowing_terms)) 0.125).
  reflexivity.
Defined.

(** X11: the buffer survives the other round trip: for a buffer of
    eight doubles, [getRunningAverages] after [assignRunningAverages]
    returns the buffer that was assigned, whatever the accumulator held. *)
Theorem running_averages_assign_then_get (a : list double) (self : Impl.t) :
  length a = 8 →
  Impl.getRunningAverages (Impl.assignRunningAverages a self) = a.
Proof.
  intros Hlen.
  do 9 (destruct a as [|? a]; try discriminate Hlen). reflexivity.
Qed.

Lemma running_averages_assign_then_get_witness :
  Impl.getRunningAverages
    (Impl.assignRunningAverages [1; 2; 3; 4; 5; 6; 7; 8]%float
                                overflowing_terms)
  = [1; 2; 3; 4; 5; 6; 7; 8]%float.
Proof.
  apply (running_averages_assign_then_get [1; 2; 3; 4; 5; 6; 7; 8]%float
           overflowing_terms).
  reflexivity.
Defined.

(** X12: F2 = 1 publishes the CTF-weighted values and F2 = 0 the
    pore-volume-weighted values: when the values of both accumulators
    are finite, each published pressure compares equal to the selected
    accumulator's value. *)
Theorem assignResults_selects controls self :
  (∀ type, isfinite (Impl.getAverageValue type (accumCTF_ self)) = true) →
  (∀ type, isfinite (Impl.getAverageValue type (accumPV_ self)) = true) →
  (conn_weight controls = 1%float →
   ∀ type,
     (Result.value (averagePressures_ (assignResults controls self)) type
      =? Impl.getAverageValue type (accumCTF_ self))%float = true)
  ∧ (conn_weight controls = 0%float →
     ∀ type,
       (Result.value (averagePressures_ (assignResults controls self)) type
        =? Impl.getAverageValue type (accumPV_ self))%float = true).
Proof.
  intros Hctf Hpv. split; intros HF2 type.
  - replace (Result.value (averagePressures_ (assignResults controls self)) type)
      with (1 * Impl.getAverageValue type (accumCTF_ self)
            + 0 * Impl.getAverageValue type (accumPV_ self))%float
      by (unfold assignResults; rewrite HF2; by destruct type).
    rewrite double_mul_1_l. apply double_add_zeroish_r; [done|].
    apply zeroish_mul_l; [by left | done].
  - replace (Result.value (averagePressures_ (assignResults controls self)) type)
      with (0 * Impl.getAverageValue type (accumCTF_ self)
            + 1 * Impl.getAverageValue type (accumPV_ self))%float
      by (unfold assignResults; rewrite HF2; by destruct type).
    rewrite double_mul_1_l. apply double_add_zeroish_l; [|done].
    apply zeroish_mul_l; [by left | done].
Qed.

Lemma assignResults_selects_witness :
  (Result.value
     (averagePressures_
        (assignResults (scenario_controls 3) (scenario_accumulated (-1))))
     WBP5
   =? Impl.getAverageValue WBP5 (accumCTF_ (scenario_accumulated (-1))))%float
  = true.
Proof.
  assert (Hfinite :
            ∀ acc, acc = accumCTF_ (scenario_accumulated (-1))
                   ∨ acc = accumPV_ (scenario_accumulated (-1)) →
                   ∀ type, isfinite (Impl.getAverageValue type acc) = true).
  { intros acc [-> | ->] []; reflexivity. }
  apply (proj1 (assignResults_selects (scenario_controls 3)
                  (scenario_accumulated (-1))
                  (Hfinite _ (or_introl eq_refl))
                  (Hfinite _ (or_intror eq_refl)))).
  reflexivity.
Defined.

(** ** The pipeline, continued *)

Lemma offset_length decl sources controls gravity refDepth self connDP :
  connectionPressureOffset decl sources controls gravity refDepth self
  = inr connDP →
  length connDP = processedConnections controls self.
Proof.
  unfold connectionPressureOffset, processedConnections,
    connectionPressureOffsetRes, connectionPressureOffsetWell.
  repeat case_match; intros [= <-];
    rewrite ?length_replicate, ?length_fmap, ?length_seq; done.
Qed.

(** X13: in every mode, the offsets [connectionPressureOffset] returns
    are one per processed connection: as many as [openConns_] when only
    open connections are processed, as many as [connections_]
    otherwise, which is what the accumulation pass asserts. *)
Theorem connectionPressureOffset_length
    decl sources controls gravity refDepth self connDP :
  connectionPressureOffset decl sources controls gravity refDepth self
  = inr connDP →
  length connDP
  = if open_connections controls
    then length (openConns_ self)
    else length (connections_ self).
Proof. apply offset_length. Qed.

Lemma connectionPressureOffset_length_witness :
  length [(-100000)%float] = length (openConns_ scenario_calculator).
Proof.
  apply (connectionPressureOffset_length test_declarations scenario_sources
           (scenario_controls 1) 10 0 scenario_calculator).
  vm_compute. reflexivity.
Defined.

(** X14: [inferBlockAveragePressures] never changes the topology: the
    cell list, the connections and the open-connection list are the same
    after the call, whether it returns or throws. *)
Theorem inferBlockAveragePressures_keeps_topology
    decl sources controls gravity refDepth self :
  same_topology self
    (state_of (inferBlockAveragePressures decl sources controls gravity
                 refDepth self)).
Proof.
  unfold inferBlockAveragePressures, accumulateLocalContributions,
    accumulateLocalContribOpen, accumulateLocalContribAll,
    accumulateLocalContributions_indexed.
  repeat case_match; simplify_eq; done.
Qed.

(** X15: with a normal gravity and an unrecognised depth-correction
    mode, [inferBlockAveragePressures] throws the offset calculator's
    exception; it leaves the published result of the previous call in
    place, and both accumulators with cleared results. *)
Theorem inferBlockAveragePressures_throws
    decl sources controls gravity refDepth self :
  isnormal gravity = true →
  ¬ recognised decl (depth_correction controls) →
  inferBlockAveragePressures decl sources controls gravity refDepth self
  = Throws (invalid_argument
              (unsupported_flag_message (depth_correction controls)))
           (set_accumulators (Impl.prepareAccumulation (accumCTF_ self))
                             (Impl.prepareAccumulation (accumPV_ self)) self).
Proof.
  intros Hg Hn. unfold inferBlockAveragePressures, accumulateLocalContributions.
  by rewrite connectionPressureOffset_throws.
Qed.

Lemma inferBlockAveragePressures_throws_witness :
  inferBlockAveragePressures test_declarations scenario_sources
    (scenario_controls 7) 10 0 (scenario_accumulated (-1))
  = Throws (invalid_argument "Unsupported WPAVE depth correction flag '7'")
           (set_accumulators
              (Impl.prepareAccumulation (accumCTF_ (scenario_accumulated (-1))))
              (Impl.prepareAccumulation (accumPV_ (scenario_accumulated (-1))))
              (scenario_accumulated (-1))).
Proof.
  apply (inferBlockAveragePressures_throws test_declarations scenario_sources
           (scenario_controls 7) 10 0 (scenario_accumulated (-1))).
  - reflexivity.
  - unfold recognised. cbn. intros [H|[H|H]]; discriminate H.
Defined.

(** X16: when no connection is processed (no connection at all, or no
    open one under the open-connections flag), the accumulation pass
    returns and all four values of the CTF-weighted accumulator are
    exactly 0, and so are those of the pore-volume-weighted accumulator
    when the default inner weight of [commitContribution] is negative. *)
Theorem no_processed_connection_gives_zero
    decl sources controls gravity refDepth self :
  processedConnections controls self = 0 →
  recognised decl (depth_correction controls) ∨ isnormal gravity = false →
  ∃ self',
    accumulateLocalContributions decl sources controls gravity refDepth self
    = Returns self'
    ∧ (∀ type, Impl.getAverageValue type (accumCTF_ self') = 0%float)
    ∧ ((commitContribution_default decl <? 0)%float = true →
       ∀ type, Impl.getAverageValue type (accumPV_ self') = 0%float).
Proof.
  intros Hn Hr. unfold accumulateLocalContributions.
  match goal with
  | |- context [connectionPressureOffset decl sources controls gravity
                  refDepth ?s] =>
      destruct (connectionPressureOffset_returns decl sources controls
                  gravity refDepth s Hr) as [connDP HDP];
      pose proof (offset_length _ _ _ _ _ _ _ HDP) as Hlen;
      rewrite HDP
  end.
  assert (connDP = []) as ->.
  { apply length_zero_iff_nil. rewrite Hlen.
    unfold processedConnections in *. by destruct (open_connections controls). }
  unfold accumulateLocalContribOpen, accumulateLocalContribAll,
    accumulateLocalContributions_indexed,
    accumulateLocalContributions_weighted.
  destruct (open_connections controls), (inner_weight controls <? 0)%float;
    (eexists; split; [reflexivity|]; split;
     [ intros type | intros Hd type ];
     cbn [accumCTF_ accumPV_ set_accumulators length seq foldl fst snd];
     [ | unfold Impl.commitContribution; rewrite Hd ];
     by destruct type).
Qed.

Lemma no_processed_connection_gives_zero_witness :
  ∃ self',
    accumulateLocalContributions test_declarations scenario_sources
      (scenario_controls 1) 10 0 shut_calculator
    = Returns self'
    ∧ (∀ type, Impl.getAverageValue type (accumCTF_ self') = 0%float)
    ∧ (∀ type, Impl.getAverageValue type (accumPV_ self') = 0%float).
Proof.
  destruct (no_processed_connection_gives_zero test_declarations
              scenario_sources (scenario_controls 1) 10 0 shut_calculator)
    as (self' & Hret & HCTF & HPV).
  - reflexivity.
  - left. right. left. reflexivity.
  - exists self'. split; [exact Hret|]. split; [exact HCTF|].
    apply HPV. reflexivity.
Defined.

Lemma foldl_ext_in {A B} (f g : A → B → A) (l : list B) (a : A) :
  (∀ a x, x ∈ l → f a x = g a x) → foldl f a l = foldl g a l.
Proof.
  revert a. induction l as [|x l IH]; intros a H; [done|].
  cbn. rewrite H by left. apply IH. intros a' x' Hx'. apply H. by right.
Qed.

Lemma lookup_total_elem_of {A} `{!Inhabited A} (l : list A) (i : nat) :
  i < length l → l !!! i ∈ l.
Proof.
  intros Hi. destruct (lookup_lt_is_Some_2 l i Hi) as [x Hx].
  rewrite (list_lookup_total_correct _ _ _ Hx).
  by eapply list_elem_of_lookup_2.
Qed.

Lemma openConnIndex_bound self connID :
  valid_open self → connID < length (openConns_ self) →
  openConnIndex self connID < length (connections_ self).
Proof.
  intros Hopen Hc. unfold openConnIndex, valid_open in *.
  rewrite Forall_forall in Hopen. by apply Hopen, lookup_total_elem_of.
Qed.

(** What the pass reads: for a calculator with valid indices, samples
    of contributing cells and of its connections only. *)
Section Locality.
Context (self : PAvgCalculator) (s1 s2 : Sources).
Hypothesis Hvalid : valid_indices self.
Hypothesis Hagree : sources_agree self s1 s2.

Lemma agree_cell (i : nat) :
  i < length (contributingCells_ self) →
  wellBlocks s1 (contributingCells_ self !!! i)
  = wellBlocks s2 (contributingCells_ self !!! i).
Proof. intros Hi. apply Hagree. by apply lookup_total_elem_of. Qed.

Lemma valid_connection_lookup (ix : nat) :
  ix < length (connections_ self) →
  valid_connection (length (contributingCells_ self)) (connections_ self !!! ix).
Proof.
  intros Hix. eapply Forall_forall; [exact Hvalid|].
  by apply lookup_total_elem_of.
Qed.

Lemma includeDensity_agree (neighbours : list nat) (density : WRA.t) :
  Forall (λ i, i < length (contributingCells_ self)) neighbours →
  foldl (λ density neighIdx, includeDensity s1 self neighIdx density)
        density neighbours
  = foldl (λ density neighIdx, includeDensity s2 self neighIdx density)
          density neighbours.
Proof.
  intros Hn. apply foldl_ext_in. intros d i Hi. unfold includeDensity.
  rewrite agree_cell; [done|]. by eapply Forall_forall in Hn.
Qed.

Lemma offsetRes_agree nconn gravity refDepth (connIndex : nat → nat) :
  (∀ connID, connID < nconn → connIndex connID < length (connections_ self)) →
  connectionPressureOffsetRes nconn s1 gravity refDepth connIndex self
  = connectionPressureOffsetRes nconn s2 gravity refDepth connIndex self.
Proof.
  intros Hix. unfold connectionPressureOffsetRes.
  apply Forall_fmap_ext_1, Forall_forall. intros connID Hc%elem_of_seq.
  destruct (valid_connection_lookup (connIndex connID)) as (Hcell & Hr & Hd);
    [apply Hix; lia|].
  cbn [neighList foldl]. unfold includeDensity at 3 6.
  rewrite agree_cell by done.
  by rewrite !includeDensity_agree.
Qed.

Lemma offsetWell_agree nconn gravity refDepth (connIndex : nat → nat) :
  (∀ connID, connID < nconn → connIndex connID < length (connections_ self)) →
  connectionPressureOffsetWell nconn s1 gravity refDepth connIndex self
  = connectionPressureOffsetWell nconn s2 gravity refDepth connIndex self.
Proof.
  intros Hix. unfold connectionPressureOffsetWell.
  apply Forall_fmap_ext_1, Forall_forall. intros connID Hc%elem_of_seq.
  cbn. destruct Hagree as [_ Hconn]. rewrite Hconn; [done|]. apply Hix. lia.
Qed.

Lemma addContrib_agree w i dp handler accs :
  i < length (contributingCells_ self) →
  addContrib s1 w self i dp handler accs = addContrib s2 w self i dp handler accs.
Proof. intros Hi. unfold addContrib. by rewrite agree_cell. Qed.

Lemma accumulateConnection_agree controls connDP (connIndex : nat → nat)
    w st connID :
  connIndex connID < length (connections_ self) →
  accumulateConnection s1 controls connDP connIndex w self st connID
  = accumulateConnection s2 controls connDP connIndex w self st connID.
Proof.
  intros Hix. destruct st as [[aCTF aPV] c]. unfold accumulateConnection.
  destruct (valid_connection_lookup (connIndex connID) Hix) as (Hcell & Hr & Hd).
  rewrite addContrib_agree by done. cbn [handlers foldl].
  match goal with
  | |- context [foldl ?f ?a (rectNeighbours ?conn)] =>
      rewrite (foldl_ext_in f
                 (λ accs neighIdx, addContrib s2 w self neighIdx
                                     (connDP !!! connID) Impl.addRectangular
                                     accs)
                 (rectNeighbours conn) a)
  end.
  2:{ intros a i Hi. apply addContrib_agree. by eapply Forall_forall in Hr. }
  match goal with
  | |- context [foldl ?f ?a (diagNeighbours ?conn)] =>
      rewrite (foldl_ext_in f
                 (λ accs neighIdx, addContrib s2 w self neighIdx
                                     (connDP !!! connID) Impl.addDiagonal accs)
                 (diagNeighbours conn) a)
  end.
  2:{ intros a i Hi. apply addContrib_agree. by eapply Forall_forall in Hd. }
  done.
Qed.

Lemma accumulate_weighted_agree decl controls connDP (connIndex : nat → nat) w :
  (∀ connID, connID < length connDP →
             connIndex connID < length (connections_ self)) →
  accumulateLocalContributions_weighted decl s1 controls connDP connIndex w self
  = accumulateLocalContributions_weighted decl s2 controls connDP connIndex w
      self.
Proof.
  intros Hix. unfold accumulateLocalContributions_weighted.
  rewrite (foldl_ext_in
             (accumulateConnection s1 controls connDP connIndex w self)
             (accumulateConnection s2 controls connDP connIndex w self));
    [done|].
  intros st connID Hc%elem_of_seq. apply accumulateConnection_agree, Hix. lia.
Qed.
End Locality.

Lemma connectionPressureOffset_agree decl s1 s2 controls gravity refDepth self :
  valid_indices self → valid_open self → sources_agree self s1 s2 →
  connectionPressureOffset decl s1 controls gravity refDepth self
  = connectionPressureOffset decl s2 controls gravity refDepth self.
Proof.
  intros Hvalid Hopen Hagree. unfold connectionPressureOffset.
  repeat case_match; try done; f_equal.
  - by apply offsetRes_agree.
  - apply offsetRes_agree; [done | done |]. intros. by apply openConnIndex_bound.
  - by apply offsetWell_agree.
  - apply offsetWell_agree; [done|]. intros. by apply openConnIndex_bound.
Qed.

(** X17: for a calculator with valid cell and open-connection indices,
    [inferBlockAveragePressures] reads the sources only at the
    contributing cells and at the calculator's connections: two source
    data sets that agree there give the same outcome, in every mode. *)
Theorem inferBlockAveragePressures_reads_contributing_cells_only
    decl s1 s2 controls gravity refDepth self :
  valid_indices self → valid_open self → sources_agree self s1 s2 →
  inferBlockAveragePressures decl s1 controls gravity refDepth self
  = inferBlockAveragePressures decl s2 controls gravity refDepth self.
Proof.
  intros Hvalid Hopen Hagree.
  unfold inferBlockAveragePressures, accumulateLocalContributions.
  set (self1 := set_accumulators _ _ self).
  rewrite (connectionPressureOffset_agree decl s1 s2 controls gravity refDepth
             self1 Hvalid Hopen Hagree).
  destruct (connectionPressureOffset decl s2 controls gravity refDepth self1)
    as [e|connDP] eqn:HDP; [done|].
  apply offset_length in HDP. unfold processedConnections in HDP.
  unfold accumulateLocalContribOpen, accumulateLocalContribAll,
    accumulateLocalContributions_indexed.
  destruct (open_connections controls), (inner_weight controls <? 0)%float;
    do 3 f_equal;
    apply (accumulate_weighted_agree self1 s1 s2 Hvalid Hagree);
    intros connID Hc; rewrite HDP in Hc;
    solve [ by apply openConnIndex_bound | exact Hc ].
Qed.

Lemma inferBlockAveragePressures_reads_contributing_cells_only_witness :
  inferBlockAveragePressures test_declarations scenario_sources
    (scenario_controls 2) 10 0 scenario_calculator
  = inferBlockAveragePressures test_declarations scenario_sources_elsewhere
      (scenario_controls 2) 10 0 scenario_calculator.
Proof.
  apply (inferBlockAveragePressures_reads_contributing_cells_only
           test_declarations scenario_sources scenario_sources_elsewhere
           (scenario_controls 2) 10 0 scenario_calculator).
  - repeat constructor.
  - repeat constructor.
  - split.
    + intros g Hg. change (g ∈ [0%Z; 1%Z]) in Hg.
      apply elem_of_cons in Hg as [-> | Hg]; [reflexivity|].
      apply elem_of_cons in Hg as [-> | Hg]; [reflexivity|].
      by apply not_elem_of_nil in Hg.
    + intros i Hi. change (i < 1) in Hi.
      assert (i = 0) as -> by lia. reflexivity.
Defined.

(** X18: a call that returns does not depend on what earlier calls
    left behind: whatever the accumulators and the published result held
    before, [inferBlockAveragePressures] leaves the same state. *)
Theorem inferBlockAveragePressures_forgets_previous_results
    decl sources controls gravity refDepth self aCTF aPV published :
  recognised decl (depth_correction controls) ∨ isnormal gravity = false →
  inferBlockAveragePressures decl sources controls gravity refDepth
    (set_averagePressures published (set_accumulators aCTF aPV self))
  = inferBlockAveragePressures decl sources controls gravity refDepth self.
Proof.
  intros Hr. unfold inferBlockAveragePressures, accumulateLocalContributions.
  match goal with
  | |- context [connectionPressureOffset decl sources controls gravity
                  refDepth ?s] =>
      change (connectionPressureOffset decl sources controls gravity
                refDepth s)
        with (connectionPressureOffset decl sources controls gravity refDepth
                self)
  end.
  destruct (connectionPressureOffset_returns decl sources controls gravity
              refDepth self Hr) as [connDP HDP].
  change (connectionPressureOffset decl sources controls gravity refDepth
            (set_accumulators (Impl.prepareAccumulation (accumCTF_ self))
               (Impl.prepareAccumulation (accumPV_ self)) self))
    with (connectionPressureOffset decl sources controls gravity refDepth self).
  rewrite HDP.
  unfold accumulateLocalContribOpen, accumulateLocalContribAll,
    accumulateLocalContributions_indexed,
    accumulateLocalContributions_weighted, assignResults,
    collectGlobalContributions.
  destruct (open_connections controls), (inner_weight controls <? 0)%float;
    reflexivity.
Qed.

Lemma inferBlockAveragePressures_forgets_previous_results_witness :
  inferBlockAveragePressures test_declarations scenario_sources
    (scenario_controls 1) 10 0
    (set_averagePressures (Result.set WBP 7 Result.zero)
       (set_accumulators overflowing_terms scenario_terms scenario_calculator))
  = inferBlockAveragePressures test_declarations scenario_sources
      (scenario_controls 1) 10 0 scenario_calculator.
Proof.
  apply (inferBlockAveragePressures_forgets_previous_results
           test_declarations scenario_sources (scenario_controls 1) 10 0
           scenario_calculator overflowing_terms scenario_terms
           (Result.set WBP 7 Result.zero)).
  left. right. left. reflexivity.
Defined.

Lemma accumulate_weighted_pv decl sources controls connDP connIndex w self :
  accumPV_ (accumulateLocalContributions_weighted decl sources controls connDP
              connIndex w self)
  = Impl.commitContribution (commitContribution_default decl)
      (foldl (connectionSamples sources poreVolWeight connDP connIndex self)
             (Impl.prepareContribution (accumPV_ self))
             (seq 0 (length connDP))).
Proof.
  unfold accumulateLocalContributions_weighted.
  cbn [accumPV_ set_accumulators]. by rewrite accumulate_loop.
Qed.

(** X19: the pore-volume-weighted accumulator does not depend on the
    inner weight F1: the accumulation pass leaves the same [accumPV_]
    for every F1, the other controls being equal; F1 only enters the
    CTF-weighted accumulator. *)
Theorem pv_accumulator_ignores_inner_weight
    decl sources controls gravity refDepth self F1 :
  accumPV_ (state_of (accumulateLocalContributions decl sources
                        (with_inner_weight F1 controls) gravity refDepth self))
  = accumPV_ (state_of (accumulateLocalContributions decl sources controls
                          gravity refDepth self)).
Proof.
  unfold accumulateLocalContributions.
  change (connectionPressureOffset decl sources (with_inner_weight F1 controls))
    with (connectionPressureOffset decl sources controls).
  destruct (connectionPressureOffset decl sources controls gravity refDepth _)
    as [e|connDP]; [done|].
  cbn [open_connections with_inner_weight].
  unfold accumulateLocalContribOpen, accumulateLocalContribAll,
    accumulateLocalContributions_indexed.
  destruct (open_connections controls);
    cbn [state_of inner_weight with_inner_weight];
    destruct (F1 <? 0)%float, (inner_weight controls <? 0)%float;
    by rewrite !accumulate_weighted_pv.
Qed.
